(** * trackthenews: the ingestion, dedup, match and notify pipeline

    A shallow embedding of [trackthenews/core.py] and the properties of
    its URL canonicalizer, matchword compiler, match evaluator, dedup
    store and per-feed loop.

    The program runs under Python 2 with [unicode_literals]: every text
    value is a [unicode] object, a sequence of code points.  Code that
    talks to the outside (HTTP, the Twitter client, the image library,
    printing) is modelled by an environment of functions and by a log of
    the calls made. *)

From Stdlib Require Import List NArith ZArith Bool Ascii String.
Import ListNotations.

(** ** Unicode text *)

Module Text.

(** A code point. *)
Definition char := N.

(** A [unicode] object. *)
Definition ustring := list char.

(** An ASCII literal as a [unicode] object. *)
Definition u (s : string) : ustring :=
  map N_of_ascii (list_ascii_of_string s).

Definition char_eqb : char -> char -> bool := N.eqb.

(** [a == b] on two [unicode] objects. *)
Fixpoint eqb (a b : ustring) : bool :=
  match a, b with
  | [], [] => true
  | x :: a', y :: b' => char_eqb x y && eqb a' b'
  | _, _ => false
  end.

(** [s.startswith(w)]. *)
Fixpoint startswith (w s : ustring) : bool :=
  match w, s with
  | [], _ => true
  | _ :: _, [] => false
  | x :: w', y :: s' => char_eqb x y && startswith w' s'
  end.

(** [w in s]: [w] occurs in [s] as a contiguous run. *)
Fixpoint contains (w s : ustring) : bool :=
  startswith w s ||
  match s with
  | [] => false
  | _ :: s' => contains w s'
  end.

(** [s.split(sep)] for a separator of one character.  The result is
    never empty: a string without the separator gives the one-element
    list of itself. *)
Fixpoint split (sep : char) (s : ustring) : list ustring :=
  match s with
  | [] => [[]]
  | c :: s' =>
      if char_eqb c sep then [] :: split sep s'
      else match split sep s' with
           | [] => [[c]]
           | g :: gs => (c :: g) :: gs
           end
  end.

(** [sep.join(l)] for a separator of one character. *)
Fixpoint join (sep : char) (l : list ustring) : ustring :=
  match l with
  | [] => []
  | g :: l' =>
      match l' with
      | [] => g
      | _ :: _ => g ++ sep :: join sep l'
      end
  end.

(** [s.lower()].  Python 2 lowers a [unicode] object one code point at
    a time with the simple lowercase mapping of the Unicode database;
    that table is the parameter [tolower]. *)
Definition lower (tolower : char -> char) (s : ustring) : ustring :=
  map tolower s.

(** The ASCII part of the lowercase table: A..Z go to a..z. *)
Definition ascii_tolower (c : char) : char :=
  if (65 <=? c)%N && (c <=? 90)%N then (c + 32)%N else c.

Definition question_mark : char := 63%N.
Definition hash_sign : char := 35%N.
Definition newline : char := 10%N.
Definition double_quote : char := 34%N.
Definition en_dash : char := 8211%N.

End Text.

Import Text.

(** ** Matchword compiler: [generate_matchwords] *)

Definition prefix : list ustring :=
  [u "("; u "["; [double_quote]; u "'"; u " "].

Definition suffix : list ustring :=
  [u ")"; u "]"; u ";"; u ","; u "."; u ":"; u "-"; [en_dash];
   [double_quote]; u "'"; u " "].

(** [list(itertools.product(prefix, suffix))]: the first component
    varies slowest. *)
Definition comb : list (ustring * ustring) := list_prod prefix suffix.

Definition words (word : ustring) : list ustring :=
  [word; word ++ u "e"; word ++ u "en"; word ++ u "es"; word ++ u "s"].

(** The loop [for w in words: res += [c[0] + w + c[1] for c in comb]]. *)
Definition generate_matchwords (word : ustring) : list ustring :=
  fold_left
    (fun res w => res ++ map (fun c => fst c ++ w ++ snd c) comb)
    (words word) [].

(** The endings that [words] appends to the root. *)
Definition endings : list ustring := [u ""; u "e"; u "en"; u "es"; u "s"].

(** How one surface form is put together from an ending and a pair of
    [comb]. *)
Definition surface (word : ustring) (t : ustring * (ustring * ustring))
  : ustring :=
  fst (snd t) ++ (word ++ fst t) ++ snd (snd t).

(** ** URL cruft removal: [decruft_url] *)

(** [url.split('?')[0].split('#')[0]] *)
Definition decruft_url (url : ustring) : ustring :=
  hd [] (split hash_sign (hd [] (split question_mark url))).

(** ** Exceptions and effects *)

Inductive Exn : Type :=
| TypeError          (* built in: an operand of the wrong type *)
| ValueError         (* built in: a value that cannot be converted *)
| AttributeError     (* built in: an attribute that was never set *)
| RequestException   (* requests: timeout, connection or redirect error *)
| TwythonError       (* twython: the Twitter API refused or failed *)
| IntegrityError     (* sqlite3: a constraint rejected the statement *)
| OtherError.        (* anything else raised by a library *)

Definition Exn_eqb (a b : Exn) : bool :=
  match a, b with
  | TypeError, TypeError | ValueError, ValueError
  | AttributeError, AttributeError | RequestException, RequestException
  | TwythonError, TwythonError | IntegrityError, IntegrityError
  | OtherError, OtherError => true
  | _, _ => false
  end.

(** The outcome of a call: an exception or a value. *)
Definition result (A : Type) : Type := (Exn + A)%type.

(** [int(x)] as the orchestrator uses it, on a nullable TEXT column:
    [None] is a [TypeError]; a run of ASCII digits is its value.  Other
    text is answered with [ValueError] (Python also accepts a sign and
    surrounding blanks; the program never stores such text). *)
Definition digit_value (c : char) : option Z :=
  if (48 <=? c)%N && (c <=? 57)%N then Some (Z.of_N (c - 48)) else None.

Fixpoint int_digits (acc : Z) (s : ustring) : result Z :=
  match s with
  | [] => inr acc
  | c :: s' =>
      match digit_value c with
      | Some d => int_digits (10 * acc + d)%Z s'
      | None => inl ValueError
      end
  end.

Definition int (x : option ustring) : result Z :=
  match x with
  | None => inl TypeError
  | Some [] => inl ValueError
  | Some s => int_digits 0 s
  end.

(** ** Articles *)

(** An image stands for the call that rendered it; its pixels are not
    part of the model.  [square] is the keyword argument of
    [render_img]; the wrap width keeps its default. *)
Inductive Img : Type :=
| render_img (graf : ustring) (square : bool).

Record Article : Type := mkArticle {
  outlet : ustring;
  title : ustring;
  url : ustring;
  delicate : bool;
  redirects : bool;
  matching_grafs : list ustring;
  imgs : list Img;
  tweeted : bool;
  plaintext : option ustring   (* unset until [clean] has run *)
}.

Definition set_url (a : Article) (v : ustring) : Article :=
  mkArticle (outlet a) (title a) v (delicate a) (redirects a)
            (matching_grafs a) (imgs a) (tweeted a) (plaintext a).

Definition set_matching_grafs (a : Article) (v : list ustring) : Article :=
  mkArticle (outlet a) (title a) (url a) (delicate a) (redirects a)
            v (imgs a) (tweeted a) (plaintext a).

Definition set_imgs (a : Article) (v : list Img) : Article :=
  mkArticle (outlet a) (title a) (url a) (delicate a) (redirects a)
            (matching_grafs a) v (tweeted a) (plaintext a).

Definition set_tweeted (a : Article) (v : bool) : Article :=
  mkArticle (outlet a) (title a) (url a) (delicate a) (redirects a)
            (matching_grafs a) (imgs a) v (plaintext a).

Definition set_plaintext (a : Article) (v : ustring) : Article :=
  mkArticle (outlet a) (title a) (url a) (delicate a) (redirects a)
            (matching_grafs a) (imgs a) (tweeted a) (Some v).

(** ** The articles table *)

Module ArticleRow.
(** One row of [articles], columns in schema order.  [recorded_at] is
    UTC time in seconds. *)
Record t : Type := mk {
  id : Z;
  title : ustring;
  outlet : ustring;
  url : ustring;
  tweeted : bool;
  recorded_at : Z;
  tweet_id : option ustring
}.
End ArticleRow.

(** The database file: the rows in rowid order, and whether the unique
    index [idx_articles_url] has been created. *)
Record Db : Type := mkDb {
  articles : list ArticleRow.t;
  idx_articles_url : bool
}.

Fixpoint has_duplicates (l : list ustring) : bool :=
  match l with
  | [] => false
  | x :: l' => existsb (eqb x) l' || has_duplicates l'
  end.

(** [setup_db]: create the table when the file is missing, then run the
    two migrations.  Adding the [tweet_id] column changes nothing here
    (rows already carry a nullable [tweet_id]).  [CREATE UNIQUE INDEX]
    raises, and the error is printed and dropped, when the index exists
    or when two rows share a url. *)
Definition setup_db (file : option Db) : Db :=
  let d := match file with
           | None => mkDb [] false
           | Some d => d
           end in
  if idx_articles_url d then d
  else if has_duplicates (map ArticleRow.url (articles d)) then d
  else mkDb (articles d) true.

(** [select * from articles where url = ?] *)
Definition select_by_url (d : Db) (v : ustring) : list ArticleRow.t :=
  filter (fun r => eqb (ArticleRow.url r) v) (articles d).

Definition seconds_per_day : Z := 86400.

(** The calendar day of a UTC time. *)
Definition utc_date (t : Z) : Z := (t / seconds_per_day)%Z.

(** [recorded_at >= date('now','-2 day')].  The column holds the text
    [YYYY-MM-DD HH:MM:SS...], the right side is the text [YYYY-MM-DD] of
    the day two days before today; text is compared byte by byte, so the
    test holds exactly when the row's day is not before that day. *)
Definition since_two_days_ago (now : Z) (r : ArticleRow.t) : bool :=
  (utc_date now - 2 <=? utc_date (ArticleRow.recorded_at r))%Z.

(** [select tweet_id from articles where title = ?
     and recorded_at >= date('now','-2 day')] *)
Definition select_same_title (d : Db) (now : Z) (v : ustring)
  : list (option ustring) :=
  map ArticleRow.tweet_id
      (filter (fun r => eqb (ArticleRow.title r) v && since_two_days_ago now r)
              (articles d)).

(** The rowid of the next row: one more than the largest in use. *)
Definition next_id (d : Db) : Z :=
  (1 + fold_right Z.max 0 (map ArticleRow.id (articles d)))%Z.

(** [insert into articles(title, outlet, url, tweeted, recorded_at,
    tweet_id) values (...)] followed by [commit]. *)
Definition insert (d : Db) (v_title v_outlet v_url : ustring)
    (v_tweeted : bool) (v_recorded_at : Z) (v_tweet_id : option ustring)
  : result Db :=
  if idx_articles_url d && existsb (fun r => eqb (ArticleRow.url r) v_url) (articles d)
  then inl IntegrityError
  else inr (mkDb (articles d ++
                  [ArticleRow.mk (next_id d) v_title v_outlet v_url v_tweeted
                          v_recorded_at v_tweet_id])
                 (idx_articles_url d)).

(** The stores the program can build: [setup_db] on a missing file,
    [setup_db] again at every start, and successful inserts. *)
Inductive reachable : Db -> Prop :=
| reachable_new : reachable (setup_db None)
| reachable_setup (d : Db) :
    reachable d -> reachable (setup_db (Some d))
| reachable_insert (d d' : Db) (v_title v_outlet v_url : ustring)
    (v_tweeted : bool) (v_recorded_at : Z) (v_tweet_id : option ustring) :
    reachable d ->
    insert d v_title v_outlet v_url v_tweeted v_recorded_at v_tweet_id
    = inr d' ->
    reachable d'.

(** ** What the program does to the outside *)

(** What [print] writes. *)
Inductive Message : Type :=
| Checking (outlet : ustring) (counter total : nat)
    (* 'Checking {} article {}/{}' *)
| HavingTrouble
    (* 'Having trouble with that article. Skipping for now.' *)
| GotOne                        (* 'Got one!' *)
| WouldTweet                    (* 'would tweet' *)
| Status (status : ustring)     (* the status just posted *)
| ErrorText (e : Exn).          (* [print(e)] *)

Inductive Event : Type :=
| Print (msg : Message)
| HttpHead (url : ustring)      (* [requests.head] in [canonicalize_url] *)
| HttpGet (url : ustring)       (* [requests.get] in [clean] *)
| Render (img : Img)            (* a call of [render_img] *)
| UploadMedia (img : Img)       (* [twitter.upload_media] *)
| UpdateStatus (status : ustring) (media_ids : list Z)
               (in_reply_to_status_id : option Z).
                                (* [twitter.update_status] *)

(** The images rendered, in the order of the calls. *)
Definition rendered (l : list Event) : list Img :=
  flat_map (fun e => match e with Render img => [img] | _ => [] end) l.

Definition img_square (img : Img) : bool :=
  match img with render_img _ square => square end.

(** The answer to [requests.head]: the [location] header when the final
    response carries one, and the url of the final response. *)
Record Response : Type := mkResponse {
  location : option ustring;
  res_url : ustring
}.

(** [res.headers['location'] if 'location' in res.headers else res.url] *)
Definition final_location (res : Response) : ustring :=
  match location res with
  | Some target => target
  | None => res_url res
  end.

(** The outside world, each capability answering as a function of the
    request. *)
Record Env : Type := mkEnv {
  (** the interpreter's lowercase table *)
  tolower : char -> char;
  (** [requests.head(url, allow_redirects=True, timeout=30)] *)
  requests_head : ustring -> result Response;
  (** [requests.get] of the url, [readability] and [html2text] *)
  fetch_plaintext : ustring -> result ustring;
  (** [twitter.upload_media(media=...)['media_id']] *)
  upload_media : Img -> result Z;
  (** [twitter.update_status(...)['id_str']] *)
  update_status : ustring -> list Z -> option Z -> result ustring
}.

(** The module's globals, set once by [main] before the feed loop. *)
Record Config : Type := mkConfig {
  TEST_MODE : bool;
  ua : ustring;
  matchwords : list ustring;
  matchwords_case_sensitive : list ustring;
  blocklist_words : option (list ustring);
  blocklist_loaded : bool;
  (** [blocklist.check] of the optional module *)
  blocklist_check : Article -> bool
}.

(** What a run changes: the database behind [conn], the clock, and the
    calls made so far (oldest first). *)
Record State : Type := mkState {
  db : Db;
  clock : Z;
  log : list Event
}.

(** The state after some more calls. *)
Definition logged (st : State) (evs : list Event) : State :=
  mkState (db st) (clock st) (log st ++ evs).

(** A computation that may raise; what it did before raising stays
    done. *)
Definition M (A : Type) : Type := State -> result A * State.

Definition ret {A : Type} (x : A) : M A := fun st => (inr x, st).

Definition raise {A : Type} (e : Exn) : M A := fun st => (inl e, st).

Definition bind {A B : Type} (m : M A) (k : A -> M B) : M B :=
  fun st =>
    match m st with
    | (inr x, st') => k x st'
    | (inl e, st') => (inl e, st')
    end.

Declare Scope py_scope.
Delimit Scope py_scope with py.
Notation "x <- m ;; k" := (bind m (fun x => k))
  (at level 61, m at next level, right associativity) : py_scope.
Notation "m ;; k" := (bind m (fun _ => k))
  (at level 61, right associativity) : py_scope.
Open Scope py_scope.

(** [m] never leaves the relation [R] between the state it starts in
    and the state it ends in, raising or not. *)
Definition preserves {A : Type} (R : State -> State -> Prop) (m : M A)
  : Prop :=
  forall st, R st (snd (m st)).

(** The calls made leave the rendered images as they were. *)
Definition same_renders (st st' : State) : Prop :=
  rendered (log st') = rendered (log st).

(** No row is lost or changed; rows may have been added. *)
Definition keeps_rows (st st' : State) : Prop :=
  exists rows, articles (db st') = articles (db st) ++ rows.

(** The calls made since [st] do not include a fetch of [v]. *)
Definition never_fetches (v : ustring) (st st' : State) : Prop :=
  exists evs, log st' = log st ++ evs /\ ~ In (HttpGet v) evs.

Definition quiet_about (v : ustring) (st st' : State) : Prop :=
  keeps_rows st st' /\ never_fetches v st st'.

(** A library call: its answer is returned or raised. *)
Definition lift {A : Type} (r : result A) : M A :=
  fun st => (r, st).

(** [try: m  except <those in catches>: handler] *)
Definition try_except {A : Type} (m : M A) (catches : Exn -> bool)
    (handler : Exn -> M A) : M A :=
  fun st =>
    match m st with
    | (inl e, st') => if catches e then handler e st' else (inl e, st')
    | r => r
    end.

Definition emit (e : Event) : M unit :=
  fun st => (inr tt, mkState (db st) (clock st) (log st ++ [e])).

Definition get_db : M Db := fun st => (inr (db st), st).

Definition put_db (d : Db) : M unit :=
  fun st => (inr tt, mkState d (clock st) (log st)).

(** [datetime.utcnow()], and SQLite's ['now']. *)
Definition utcnow : M Z := fun st => (inr (clock st), st).

(** [time.sleep(n)] *)
Definition sleep (n : Z) : M unit :=
  fun st => (inr tt, mkState (db st) (clock st + n)%Z (log st)).

(** [for x in l: acc = body(acc, x)] *)
Fixpoint for_each {A S : Type} (l : list A) (body : S -> A -> M S)
    (acc : S) : M S :=
  match l with
  | [] => ret acc
  | x :: l' => acc' <- body acc x ;; for_each l' body acc'
  end.

(** [main]: every line of the case-sensitive list is expanded,
    [matchwords_case_sensitive += generate_matchwords(w)]. *)
Definition expand_case_sensitive (raw : list ustring) : list ustring :=
  fold_left (fun acc w => acc ++ generate_matchwords w) raw [].

(** ** The Article methods and the feed loop *)

Section Pipeline.

Variable cfg : Config.
Variable env : Env.

(** [Article.canonicalize_url] *)
Definition canonicalize_url (a : Article) : M Article :=
  a <- (if redirects a then
          emit (HttpHead (url a)) ;;
          res <- lift (requests_head env (url a)) ;;
          ret (set_url a (final_location res))
        else ret a) ;;
  if negb (delicate a) then ret (set_url a (decruft_url (url a)))
  else ret a.

(** [Article.__init__] *)
Definition Article_init (outlet title url : ustring)
    (delicate redirects : bool) : M Article :=
  canonicalize_url
    (mkArticle outlet title url delicate redirects [] [] false None).

(** [Article.clean] *)
Definition clean (a : Article) : M Article :=
  emit (HttpGet (url a)) ;;
  text <- lift (fetch_plaintext env (url a)) ;;
  ret (set_plaintext a text).

(** The test of the inner loop of [check_for_matches]. *)
Definition graf_matches (graf : ustring) : bool :=
  existsb (fun word => contains (lower (tolower env) word)
                                (lower (tolower env) graf))
          (matchwords cfg)
  || existsb (fun word => contains word graf)
             (matchwords_case_sensitive cfg).

(** The block-word test of [check_for_matches]; it is skipped when
    [blocklist_words] is [None]. *)
Definition has_block_word (text : ustring) : bool :=
  match blocklist_words cfg with
  | None => false
  | Some block =>
      existsb (fun word => contains (lower (tolower env) word)
                                    (lower (tolower env) text))
              block
  end.

(** [Article.check_for_matches] *)
Definition check_for_matches (a : Article) : M Article :=
  a <- clean a ;;
  match plaintext a with
  | None => raise AttributeError
  | Some text =>
      if contains (ua cfg) text then ret a
      else if has_block_word text then ret a
      else
        let plaintext_grafs := split newline text in
        if blocklist_loaded cfg && blocklist_check cfg a then ret a
        else
          ret (fold_left
                 (fun a graf =>
                    if graf_matches graf
                    then set_matching_grafs a (matching_grafs a ++ [graf])
                    else a)
                 plaintext_grafs a)
  end.

(** [Article.tweet]; the keyword arguments carry at most
    [in_reply_to_status_id]. *)
Definition tweet (a : Article) (in_reply_to_status_id : option Z)
  : M (Article * ustring) :=
  let square :=
    if Nat.eqb (List.length (matching_grafs a)) 1 then false else true in
  a <- for_each (firstn 4 (matching_grafs a))
         (fun a graf =>
            emit (Render (render_img graf square)) ;;
            ret (set_imgs a (imgs a ++ [render_img graf square])))
         a ;;
  media_ids <- for_each (firstn 4 (imgs a))
         (fun media_ids img =>
            try_except
              (emit (UploadMedia img) ;;
               res <- lift (upload_media env img) ;;
               ret (media_ids ++ [res]))
              (Exn_eqb TwythonError)
              (fun _ => ret media_ids))
         [] ;;
  let source :=
    match outlet a with
    | [] => []
    | _ :: _ => outlet a ++ u ": "
    end in
  let status := source ++ title a ++ u " " ++ url a in
  if TEST_MODE cfg then
    emit (Print WouldTweet) ;;
    ret (a, u "1337")
  else
    emit (UpdateStatus status media_ids in_reply_to_status_id) ;;
    response <- lift (update_status env status media_ids
                                    in_reply_to_status_id) ;;
    emit (Print (Status status)) ;;
    ret (set_tweeted a true, response).

(** The last block of the loop body: the insert and its handler. *)
Definition record_article (a : Article) (just_tweeted_id : option ustring)
  : M unit :=
  try_except
    (d <- get_db ;;
     now <- utcnow ;;
     d' <- lift (insert d (title a) (outlet a) (url a) (tweeted a) now
                        just_tweeted_id) ;;
     put_db d' ;;
     sleep 1)
    (Exn_eqb IntegrityError)
    (fun e => emit (Print (ErrorText e)) ;; sleep 1).

(** The thread-parent lookup of the loop body: the query for rows of
    the same title, and [int(tweet_id)] of the last row returned.  Its
    answer is the [in_reply_to_status_id] that [tweet] is called with;
    [None] is the call [article.tweet()]. *)
Definition thread_parent (article : Article) : M (option Z) :=
  d <- get_db ;;
  now <- utcnow ;;
  let same_title := select_same_title d now (title article) in
  if negb (Nat.eqb (List.length same_title) 0) then
    let tweet_id := last same_title None in
    parent <- lift (int tweet_id) ;;
    ret (Some parent)
  else ret None.

(** The body of [for counter, article in enumerate(deduped, 1)];
    [total] is [len(deduped)]. *)
Definition process_article (total counter : nat) (article : Article)
  : M unit :=
  d <- get_db ;;
  let article_exists := select_by_url d (url article) in
  if negb (Nat.eqb (List.length article_exists) 0) then ret tt
  else
    emit (Print (Checking (outlet article) counter total)) ;;
    article <- try_except (check_for_matches article)
                 (fun _ => true)
                 (fun _ => emit (Print HavingTrouble) ;; ret article) ;;
    r <- match matching_grafs article with
         | _ :: _ =>
             emit (Print GotOne) ;;
             parent <- thread_parent article ;;
             r <- tweet article parent ;;
             ret (fst r, Some (snd r))
         | [] => ret (article, None)
         end ;;
    record_article (fst r) (snd r).

Fixpoint process_articles (total counter : nat) (deduped : list Article)
  : M unit :=
  match deduped with
  | [] => ret tt
  | article :: rest =>
      process_article total counter article ;;
      process_articles total (S counter) rest
  end.

(** One entry of [feed['entries']]. *)
Record Entry : Type := mkEntry {
  entry_title : ustring;
  entry_link : ustring
}.

(** [parse_feed], given what [feedparser.parse(url)] returned. *)
Definition parse_feed (outlet : ustring) (entries : list Entry)
    (delicate redirects : bool) : M (list Article) :=
  for_each entries
    (fun articles entry =>
       article <- Article_init outlet (entry_title entry)
                    (entry_link entry) delicate redirects ;;
       ret (articles ++ [article]))
    [].

(** The first loop over [articles]: keep the first article of each
    url. *)
Definition dedupe (articles : list Article) : list Article :=
  fst (fold_left
         (fun acc article =>
            let '(deduped, deduped_urls) := acc in
            if negb (existsb (eqb (url article)) deduped_urls)
            then (deduped ++ [article], url article :: deduped_urls)
            else acc)
         articles ([], [])).

(** The body of [for feed in rss_feeds]. *)
Definition process_feed (outlet : ustring) (entries : list Entry)
    (delicate redirects : bool) : M unit :=
  articles <- parse_feed outlet entries delicate redirects ;;
  let deduped := dedupe articles in
  process_articles (List.length deduped) 1 deduped.

End Pipeline.


(** ** Sample feeds and worlds *)

Module Sample.

Definition fbi_text : ustring :=
  u "Alpha unrelated." ++ [newline] ++ u "The FBI said so.".

(** What the sample sites serve; any other url times out. *)
Definition pages (v : ustring) : result ustring :=
  if eqb v (u "http://ex.com/a") then inr (u "has an x in it")
  else if eqb v (u "http://ex.com/fbi") then inr fbi_text
  else if eqb v (u "http://ex.com/leak")
       then inr (u "an x and a SECRET plan")
  else if eqb v (u "http://ex.com/dull") then inr (u "nothing to see")
  else inl RequestException.

(** No site redirects. *)
Definition direct (v : ustring) : result Response :=
  inr (mkResponse None v).

(** The feed proxy sends its link to the article with a tracking
    query; the site sends the bare article url on to another page. *)
Definition hops (v : ustring) : result Response :=
  if eqb v (u "http://feeds.ex.com/r/1")
  then inr (mkResponse None (u "http://ex.com/a?src=rss"))
  else if eqb v (u "http://ex.com/a")
       then inr (mkResponse None (u "http://ex.com/b"))
  else direct v.

(** As [hops], but the site serves the bare article url itself. *)
Definition settles (v : ustring) : result Response :=
  if eqb v (u "http://feeds.ex.com/r/1")
  then inr (mkResponse None (u "http://ex.com/a?src=rss"))
  else direct v.

Definition world (head : ustring -> result Response) : Env :=
  mkEnv ascii_tolower head pages
        (fun _ => inr 7%Z) (fun _ _ _ => inr (u "1001")).

Definition config : Config :=
  mkConfig false (u "ttn-sample/1.0") [u "x"]
           (expand_case_sensitive [u "FBI"]) (Some [u "Secret"])
           false (fun _ => false).

(** A new database, at some second of 14 November 2023. *)
Definition start : State :=
  mkState (setup_db None) 1700000000%Z [].

Definition article (v_title v_url : ustring) : Article :=
  mkArticle (u "Outlet") v_title v_url false false [] [] false None.

Definition later (st : State) (seconds : Z) : State :=
  mkState (db st) (clock st + seconds)%Z (log st).

(** The state after a pass over one article that holds no
    matchword. *)
Definition after_dull : State :=
  snd (process_articles config (world direct) 1 1
         [article (u "X") (u "http://ex.com/dull")] start).

(** The state after a pass over one article whose site is down. *)
Definition after_down : State :=
  snd (process_articles config (world direct) 1 1
         [article (u "Down") (u "http://ex.com/down")] start).

End Sample.

(** ** The rest of [main]: word lists and job chunks *)

From Stdlib Require Import Lia.

(** [[w for w in f.read().split('\n') if w]]: the lines of a list file
    that are not empty. *)
Definition nonblank_lines (text : ustring) : list ustring :=
  filter (fun w => match w with [] => false | _ :: _ => true end)
         (split newline text).

(** [a[lo:hi]] for indices that are not negative. *)
Definition slice {A : Type} (a : list A) (lo hi : nat) : list A :=
  firstn (hi - lo) (skipn lo a).

(** [list(chunk_list(a, n))].  [divmod(len(a), 0)] raises
    [ZeroDivisionError]: that is [None]. *)
Definition chunk_list {A : Type} (a : list A) (n : nat)
  : option (list (list A)) :=
  match n with
  | 0 => None
  | S _ =>
      let k := List.length a / n in
      let m := List.length a mod n in
      Some (map (fun i => slice a (i * k + Nat.min i m)
                                  ((i + 1) * k + Nat.min (i + 1) m))
                (seq 0 n))
  end.

(** ** Relations on runs *)

(** The three tests of [check_for_matches] that end it with no paragraph:
    the user agent in the text, a block word, the blocklist module. *)
Definition suppressed (cfg : Config) (env : Env) (a : Article)
    (text : ustring) : bool :=
  contains (ua cfg) text
  || has_block_word cfg env text
  || (blocklist_loaded cfg && blocklist_check cfg (set_plaintext a text)).

(** The articles of [l] that are the first of their url, urls in [seen]
    counting as met before. *)
Fixpoint keep_first (seen : list ustring) (l : list Article)
  : list Article :=
  match l with
  | [] => []
  | x :: l' =>
      if existsb (eqb (url x)) seen then keep_first seen l'
      else x :: keep_first (url x :: seen) l'
  end.

(** Midnight UTC of the day two days before the day of [now]: what
    [date('now','-2 day')] stands for, in seconds. *)
Definition window_start (now : Z) : Z :=
  (seconds_per_day * (utc_date now - 2))%Z.

(** A row that the thread-parent query leaves out for an article of
    title [v] at time [now]. *)
Definition not_a_parent (now : Z) (v : ustring) (r : ArticleRow.t) : Prop :=
  ArticleRow.title r <> v \/ since_two_days_ago now r = false.

(** Between [st] and [st'] only calls were made, each satisfying [P]:
    the store and the clock are as before. *)
Definition calls (P : Event -> Prop) (st st' : State) : Prop :=
  db st' = db st
  /\ clock st' = clock st
  /\ exists evs, log st' = log st ++ evs /\ Forall P evs.

(** Between [st] and [st'] rows were only added at the end, the index
    is as before, the clock did not go back, and the calls made each
    satisfy [P]. *)
Definition grows (P : Event -> Prop) (st st' : State) : Prop :=
  (exists rows, articles (db st') = articles (db st) ++ rows)
  /\ idx_articles_url (db st') = idx_articles_url (db st)
  /\ (clock st <= clock st')%Z
  /\ exists evs, log st' = log st ++ evs /\ Forall P evs.

(** [P] allows every call the feed body can make under [cfg]; a post
    only outside test mode. *)
Definition admits (cfg : Config) (P : Event -> Prop) : Prop :=
  (forall msg, P (Print msg))
  /\ (forall v, P (HttpHead v))
  /\ (forall v, P (HttpGet v))
  /\ (forall img, P (Render img))
  /\ (forall img, P (UploadMedia img))
  /\ (TEST_MODE cfg = false ->
      forall status media_ids parent,
        P (UpdateStatus status media_ids parent)).

Definition not_post (e : Event) : Prop :=
  forall status media_ids parent, e <> UpdateStatus status media_ids parent.

Definition any_event (e : Event) : Prop := True.

(** The [media_id]s of the uploads that did not raise, in order. *)
Definition uploaded (env : Env) (l : list Img) : list Z :=
  flat_map (fun img => match upload_media env img with
                       | inr media_id => [media_id]
                       | inl _ => []
                       end) l.

(** The status text that [tweet] builds. *)
Definition status_of (a : Article) : ustring :=
  match outlet a with
  | [] => []
  | _ :: _ => outlet a ++ u ": "
  end ++ title a ++ u " " ++ url a.

(** The images that [tweet] renders for an article. *)
Definition images_of (a : Article) : list Img :=
  map (fun graf =>
         render_img graf
           (negb (Nat.eqb (List.length (matching_grafs a)) 1)))
      (firstn 4 (matching_grafs a)).

Definition is_head (e : Event) : Prop := exists v, e = HttpHead v.



(** How many calls of [update_status] a list of calls holds. *)
Definition posts (l : list Event) : nat :=
  List.length
    (filter (fun e => match e with UpdateStatus _ _ _ => true | _ => false end)
            l).

(** Between [st] and [st'] at most [n] statuses were posted. *)
Definition posts_at_most (n : nat) (st st' : State) : Prop :=
  exists evs, log st' = log st ++ evs /\ posts evs <= n.

(** ** More samples *)

Module More.

(** The upload of one image is refused by the API. *)
Definition flaky_upload (img : Img) : result Z :=
  match img with
  | render_img graf _ =>
      if eqb graf (u "second x") then inl TwythonError
      else inr (Z.of_nat (List.length graf))
  end.

Definition world : Env :=
  mkEnv ascii_tolower Sample.direct Sample.pages flaky_upload
        (fun _ _ _ => inr (u "1001")).

(** An article as [check_for_matches] leaves it, with three matching
    paragraphs. *)
Definition matched : Article :=
  mkArticle (u "Outlet") (u "T") (u "http://ex.com/t") false false
            [u "first x"; u "second x"; u "the third x"] [] false
            (Some (u "first x")).

Definition test_config : Config :=
  mkConfig true (u "ttn-sample/1.0") [u "x"] [] None false
           (fun _ => false).

End More.
(** * Properties *)

(** ** Text *)

Lemma eqb_eq (a b : ustring) : eqb a b = true <-> a = b.
Proof.
  revert b; induction a as [|x a IH]; intros [|y b]; simpl;
    try (split; [discriminate | discriminate]); try tauto.
  unfold char_eqb.
  rewrite andb_true_iff, N.eqb_eq, IH.
  split; [intros [-> ->]; reflexivity | intros H; inversion H; auto].
Qed.

Lemma eqb_refl (a : ustring) : eqb a a = true.
Proof. apply eqb_eq; reflexivity. Qed.

Lemma eqb_neq (a b : ustring) : eqb a b = false <-> a <> b.
Proof.
  rewrite <- eqb_eq. destruct (eqb a b); split; congruence.
Qed.

(** [startswith] and [contains] say what Python's [startswith] and
    [in] say. *)
Lemma startswith_spec (w s : ustring) :
  startswith w s = true <-> exists post, s = w ++ post.
Proof.
  revert s; induction w as [|x w IH]; intros s; simpl.
  - split; [intros _; exists s; reflexivity | reflexivity].
  - destruct s as [|y s].
    + split; [discriminate | intros [post H]; discriminate H].
    + unfold char_eqb. rewrite andb_true_iff, N.eqb_eq, IH. split.
      * intros [-> [post ->]]. exists post. reflexivity.
      * intros [post H]. injection H as -> ->. eauto.
Qed.

Lemma contains_spec (w s : ustring) :
  contains w s = true <-> exists pre post, s = pre ++ w ++ post.
Proof.
  induction s as [|c s IH]; simpl.
  - rewrite orb_false_r, startswith_spec. split.
    + intros [post H]. exists [], post. exact H.
    + intros (pre & post & H). destruct pre as [|p pre].
      * exists post. exact H.
      * discriminate H.
  - rewrite orb_true_iff, startswith_spec, IH. split.
    + intros [[post H] | (pre & post & H)].
      * exists [], post. exact H.
      * exists (c :: pre), post. simpl. now rewrite H.
    + intros (pre & post & H). destruct pre as [|p pre].
      * left. exists post. exact H.
      * right. injection H as _ H. eauto.
Qed.

Lemma split_not_nil (sep : char) (s : ustring) : split sep s <> [].
Proof.
  destruct s as [|c s]; simpl; [discriminate|].
  destruct (char_eqb c sep); [discriminate|].
  destruct (split sep s); discriminate.
Qed.

(** The fields of a split hold no separator, and joined by the
    separator they give the text back. *)
Lemma split_no_sep (sep : char) (s : ustring) :
  Forall (fun g => ~ In sep g) (split sep s).
Proof.
  induction s as [|c s IH]; simpl.
  - constructor; [intros [] | constructor].
  - destruct (char_eqb c sep) eqn:Hc.
    + constructor; [intros [] | exact IH].
    + apply N.eqb_neq in Hc.
      destruct (split sep s) as [|g gs]; [repeat constructor|].
      * intros [H|[]]. congruence.
      * inversion IH as [|? ? Hg Hgs]; subst.
        constructor; [|exact Hgs].
        intros [H|H]; [congruence | contradiction].
Qed.

Lemma join_split (sep : char) (s : ustring) : join sep (split sep s) = s.
Proof.
  induction s as [|c s IH]; simpl; [reflexivity|].
  destruct (char_eqb c sep) eqn:Hc.
  - apply N.eqb_eq in Hc; subst c.
    pose proof (split_not_nil sep s) as Hnil.
    simpl. destruct (split sep s) as [|g gs]; [contradiction|].
    simpl. f_equal. exact IH.
  - pose proof (split_not_nil sep s) as Hnil.
    destruct (split sep s) as [|g gs]; [contradiction|].
    simpl in *. destruct gs as [|g' gs]; now rewrite <- IH.
Qed.

(** The first field of a split: the text before the first separator. *)
Lemma hd_split (sep : char) (s : ustring) :
  exists rest,
    s = hd [] (split sep s) ++ rest
    /\ (rest = [] \/ exists rest', rest = sep :: rest')
    /\ ~ In sep (hd [] (split sep s))
    /\ incl (hd [] (split sep s)) s.
Proof.
  induction s as [|c s (rest & Hs & Hrest & Hnot & Hincl)]; simpl.
  - exists []. repeat split; auto. apply incl_refl.
  - destruct (char_eqb c sep) eqn:Hc; simpl.
    + apply N.eqb_eq in Hc; subst c.
      exists (sep :: s). repeat split; eauto.
      intros x [].
    + apply N.eqb_neq in Hc.
      pose proof (split_not_nil sep s) as Hnil.
      destruct (split sep s) as [|g gs]; [contradiction|]; simpl in *.
      exists rest. repeat split; auto.
      * congruence.
      * intros [H|H]; [congruence | contradiction].
      * intros x [->|Hx]; [left; reflexivity | right; apply Hincl, Hx].
Qed.

(** ** Matchword compiler *)

Lemma fold_left_app_flat_map {A B : Type} (f : A -> list B)
    (l : list A) (acc : list B) :
  fold_left (fun res w => res ++ f w) l acc = acc ++ flat_map f l.
Proof.
  revert acc; induction l as [|x l IH]; intros acc; simpl.
  - now rewrite app_nil_r.
  - now rewrite IH, app_assoc.
Qed.

Lemma generate_matchwords_shape (word : ustring) :
  generate_matchwords word = map (surface word) (list_prod endings comb).
Proof.
  unfold generate_matchwords.
  rewrite fold_left_app_flat_map.
  generalize comb; intros l.
  unfold words, endings.
  cbn [flat_map list_prod app].
  rewrite !map_app, !map_map, !app_nil_r.
  unfold surface; cbn [fst snd].
  change (u "") with (@nil char).
  rewrite app_nil_r. reflexivity.
Qed.

Lemma single_char_affixes :
  Forall (fun c => exists a b, fst c = [a] /\ snd c = [b]) comb.
Proof.
  unfold comb, prefix, suffix; cbn.
  repeat (constructor; [do 2 eexists; split; reflexivity|]).
  constructor.
Qed.

Lemma NoDup_list_prod {A B : Type} (l : list A) (l' : list B) :
  NoDup l -> NoDup l' -> NoDup (list_prod l l').
Proof.
  intros Hl Hl'; induction Hl as [|x l Hx _ IH]; simpl; [constructor|].
  apply NoDup_app; [|exact IH|].
  - apply NoDup_map_NoDup_ForallPairs; [|exact Hl'].
    intros a b _ _ H; congruence.
  - intros [a b] Hin Hin'.
    apply in_map_iff in Hin as (b' & Heq & _).
    apply in_prod_iff in Hin' as [Hin' _].
    congruence.
Qed.

Lemma NoDup_endings : NoDup endings.
Proof.
  unfold endings.
  repeat (constructor; [simpl; intuition discriminate|]).
  constructor.
Qed.

Lemma NoDup_prefix : NoDup prefix.
Proof.
  unfold prefix.
  repeat (constructor; [simpl; intuition discriminate|]).
  constructor.
Qed.

Lemma NoDup_suffix : NoDup suffix.
Proof.
  unfold suffix.
  repeat (constructor; [simpl; intuition discriminate|]).
  constructor.
Qed.

Lemma surface_injective (word : ustring) :
  ForallPairs (fun x y => surface word x = surface word y -> x = y)
              (list_prod endings comb).
Proof.
  intros [m [p s]] [m' [p' s']] Hx Hy.
  apply in_prod_iff in Hx as [_ Hx], Hy as [_ Hy].
  pose proof single_char_affixes as Hall.
  rewrite Forall_forall in Hall.
  destruct (Hall _ Hx) as (a & b & Hp & Hs).
  destruct (Hall _ Hy) as (a' & b' & Hp' & Hs').
  simpl in Hp, Hs, Hp', Hs'; subst.
  unfold surface; simpl.
  intros H; injection H as Ha Hrest.
  apply app_inj_tail in Hrest as [Hm Hb].
  apply app_inv_head in Hm.
  congruence.
Qed.

(** C3, as the code has it: the compiler is a total function that
    yields, for every root word, the 275 surface forms
    [prefix + (word + ending) + suffix], one for each of the 5 endings,
    5 prefixes and 11 suffixes, ending by ending and prefix before
    suffix, and no form occurs twice. *)
Theorem generate_matchwords_275 (word : ustring) :
  generate_matchwords word
  = flat_map (fun ending =>
                map (fun c => fst c ++ (word ++ ending) ++ snd c)
                    (list_prod prefix suffix))
             [u ""; u "e"; u "en"; u "es"; u "s"]
  /\ List.length prefix = 5
  /\ List.length suffix = 11
  /\ List.length (generate_matchwords word) = 5 * (5 * 11)
  /\ List.length (generate_matchwords word) = 275
  /\ NoDup (generate_matchwords word).
Proof.
  assert (Hlen : List.length (generate_matchwords word) = 275).
  { rewrite generate_matchwords_shape, length_map, length_prod.
    reflexivity. }
  repeat split; try exact Hlen; try reflexivity.
  - unfold generate_matchwords, words.
    rewrite fold_left_app_flat_map.
    fold comb; generalize comb; intros l.
    cbn [flat_map app].
    change (u "") with (@nil char).
    now rewrite (app_nil_r word).
  - rewrite generate_matchwords_shape.
    apply NoDup_map_NoDup_ForallPairs.
    + apply surface_injective.
    + apply NoDup_list_prod; [apply NoDup_endings|].
      apply NoDup_list_prod; [apply NoDup_prefix | apply NoDup_suffix].
Qed.

(** C3 as written fails: the root word FBI does not have 250 surface
    forms. *)
Lemma generate_matchwords_not_250 :
  List.length (generate_matchwords (u "FBI")) <> 250.
Proof. vm_compute. discriminate. Qed.

(** ** URL cruft removal *)

Lemma decruft_url_cut (url : ustring) :
  exists rest,
    url = decruft_url url ++ rest
    /\ (rest = []
        \/ exists c rest', rest = c :: rest'
                           /\ (c = question_mark \/ c = hash_sign))
    /\ ~ In question_mark (decruft_url url)
    /\ ~ In hash_sign (decruft_url url)
    /\ (~ In question_mark url -> ~ In hash_sign url ->
        decruft_url url = url).
Proof.
  unfold decruft_url.
  destruct (hd_split question_mark url) as (r1 & H1 & Hr1 & Hq1 & Hi1).
  set (h1 := hd [] (split question_mark url)) in *.
  destruct (hd_split hash_sign h1) as (r2 & H2 & Hr2 & Hq2 & Hi2).
  set (h2 := hd [] (split hash_sign h1)) in *.
  assert (Hrest : r2 ++ r1 = []
                  \/ exists c rest', r2 ++ r1 = c :: rest'
                       /\ (c = question_mark \/ c = hash_sign)).
  { destruct Hr2 as [->|[r2' ->]]; simpl.
    - destruct Hr1 as [->|[r1' ->]]; [left; reflexivity|].
      right; exists question_mark, r1'; auto.
    - right; exists hash_sign, (r2' ++ r1); auto. }
  exists (r2 ++ r1). repeat split.
  - rewrite app_assoc, <- H2. exact H1.
  - exact Hrest.
  - intros H. apply Hq1, Hi2, H.
  - exact Hq2.
  - intros Hq Hh.
    destruct Hrest as [Hnil|(c & rest' & Hc & Hor)].
    + apply app_eq_nil in Hnil as [-> ->].
      rewrite app_nil_r in H2. rewrite app_nil_r in H1. congruence.
    + exfalso.
      assert (Hin : In c url).
      { rewrite H1, H2, <- app_assoc, Hc.
        apply in_or_app; right; left; reflexivity. }
      destruct Hor as [-> | ->]; auto.
Qed.

Lemma decruft_url_idempotent (url : ustring) :
  decruft_url (decruft_url url) = decruft_url url.
Proof.
  destruct (decruft_url_cut url) as (_ & _ & _ & Hq & Hh & _).
  destruct (decruft_url_cut (decruft_url url)) as (_ & _ & _ & _ & _ & Hsame).
  apply Hsame; assumption.
Qed.

(** C10: [decruft_url] returns a prefix of its input, the rest of the
    input being empty or starting with the first ['?'] or ['#']; the
    prefix holds neither character, and an input that holds neither is
    returned unchanged. *)
Theorem decruft_url_prefix (url : ustring) :
  exists rest,
    url = decruft_url url ++ rest
    /\ (rest = []
        \/ exists c rest', rest = c :: rest'
                           /\ (c = question_mark \/ c = hash_sign))
    /\ ~ In question_mark (decruft_url url)
    /\ ~ In hash_sign (decruft_url url)
    /\ (~ In question_mark url -> ~ In hash_sign url ->
        decruft_url url = url).
Proof. exact (decruft_url_cut url). Qed.

Lemma decruft_url_prefix_witness :
  decruft_url (u "http://ex.com/a") = u "http://ex.com/a".
Proof.
  destruct (decruft_url_prefix (u "http://ex.com/a"))
    as (rest & _ & _ & _ & _ & Hsame).
  apply Hsame; vm_compute; intuition discriminate.
Defined.

(** ** Effects *)

Lemma logged_nil (st : State) : logged st [] = st.
Proof. destruct st; unfold logged; simpl. now rewrite app_nil_r. Qed.

Lemma logged_logged (st : State) (l l' : list Event) :
  logged (logged st l) l' = logged st (l ++ l').
Proof. unfold logged; simpl. now rewrite app_assoc. Qed.

Lemma bind_ok {A B : Type} (m : M A) (k : A -> M B) (st st' : State) (x : A) :
  m st = (inr x, st') -> bind m k st = k x st'.
Proof. unfold bind; intros ->; reflexivity. Qed.

Lemma bind_raise {A B : Type} (m : M A) (k : A -> M B) (st st' : State)
    (e : Exn) :
  m st = (inl e, st') -> bind m k st = (inl e, st').
Proof. unfold bind; intros ->; reflexivity. Qed.

Section Preserves.

Variable R : State -> State -> Prop.
Hypothesis R_refl : forall st, R st st.
Hypothesis R_trans : forall a b c, R a b -> R b c -> R a c.

Lemma preserves_ret {A : Type} (x : A) : preserves R (ret x).
Proof. intros st; apply R_refl. Qed.

Lemma preserves_raise {A : Type} (e : Exn) : preserves R (@raise A e).
Proof. intros st; apply R_refl. Qed.

Lemma preserves_lift {A : Type} (r : result A) : preserves R (lift r).
Proof. intros st; apply R_refl. Qed.

Lemma preserves_get_db : preserves R get_db.
Proof. intros st; apply R_refl. Qed.

Lemma preserves_utcnow : preserves R utcnow.
Proof. intros st; apply R_refl. Qed.

Lemma preserves_bind {A B : Type} (m : M A) (k : A -> M B) :
  preserves R m -> (forall x, preserves R (k x)) -> preserves R (bind m k).
Proof.
  intros Hm Hk st. unfold bind.
  specialize (Hm st). destruct (m st) as [[e|x] st']; simpl in *.
  - exact Hm.
  - eapply R_trans; [exact Hm | apply Hk].
Qed.

Lemma preserves_try_except {A : Type} (m : M A) (catches : Exn -> bool)
    (handler : Exn -> M A) :
  preserves R m -> (forall e, preserves R (handler e)) ->
  preserves R (try_except m catches handler).
Proof.
  intros Hm Hh st. unfold try_except.
  specialize (Hm st). destruct (m st) as [[e|x] st']; simpl in *.
  - destruct (catches e); [|exact Hm].
    eapply R_trans; [exact Hm | apply Hh].
  - exact Hm.
Qed.

Lemma preserves_for_each {A S : Type} (l : list A) (body : S -> A -> M S) :
  (forall acc x, preserves R (body acc x)) ->
  forall acc, preserves R (for_each l body acc).
Proof.
  intros Hbody; induction l as [|x l IH]; intros acc; simpl.
  - apply preserves_ret.
  - apply preserves_bind; [apply Hbody | exact IH].
Qed.

End Preserves.

(** One step through a computation, for a relation given by its
    reflexivity, its transitivity and what it asks of an emitted
    event. *)
Ltac preserves_step Rrefl Rtrans Remit :=
  lazymatch goal with
  | |- preserves _ (bind _ _) =>
      apply preserves_bind; [exact Rtrans | | intro]
  | |- preserves _ (try_except _ _ _) =>
      apply preserves_try_except; [exact Rtrans | | intro]
  | |- preserves _ (for_each _ _ _) =>
      apply preserves_for_each; [exact Rrefl | exact Rtrans | intros ? ?]
  | |- preserves _ (ret _) => apply preserves_ret; exact Rrefl
  | |- preserves _ (raise _) => apply preserves_raise; exact Rrefl
  | |- preserves _ (lift _) => apply preserves_lift; exact Rrefl
  | |- preserves _ get_db => apply preserves_get_db; exact Rrefl
  | |- preserves _ utcnow => apply preserves_utcnow; exact Rrefl
  | |- preserves _ (emit _) => apply Remit; intros; congruence
  | |- preserves _ (if ?b then _ else _) => destruct b
  | |- preserves _ (match ?x with _ => _ end) => destruct x
  | |- preserves _ (let _ := _ in _) => cbv zeta
  end.

(** ** Match evaluator *)

Lemma set_matching_grafs_same (a : Article) :
  set_matching_grafs a (matching_grafs a) = a.
Proof. destruct a; reflexivity. Qed.

Lemma collect_grafs (p : ustring -> bool) (l : list ustring) (a : Article) :
  fold_left (fun a graf =>
               if p graf
               then set_matching_grafs a (matching_grafs a ++ [graf])
               else a) l a
  = set_matching_grafs a (matching_grafs a ++ filter p l).
Proof.
  revert a; induction l as [|g l IH]; intros a; simpl.
  - now rewrite app_nil_r, set_matching_grafs_same.
  - rewrite IH. destruct (p g); [|reflexivity].
    destruct a; unfold set_matching_grafs; simpl.
    now rewrite <- app_assoc.
Qed.

Section MatchEvaluator.

Variable cfg : Config.
Variable env : Env.

(** C7: when the fetched text holds a configured block word, both
    lowered, [check_for_matches] returns with no matching paragraph,
    whatever the matchword lists are. *)
Theorem block_word_suppresses_article
    (a : Article) (st : State) (text : ustring)
    (block : list ustring) (word : ustring)
    (Hfresh : matching_grafs a = [])
    (Hfetch : fetch_plaintext env (url a) = inr text)
    (Hblock : blocklist_words cfg = Some block)
    (Hword : In word block)
    (Hin : contains (lower (tolower env) word)
                    (lower (tolower env) text) = true) :
  check_for_matches cfg env a st
  = (inr (set_plaintext a text), logged st [HttpGet (url a)])
  /\ matching_grafs (set_plaintext a text) = [].
Proof.
  split; [|exact Hfresh].
  unfold check_for_matches, clean, bind, emit, lift, ret, logged.
  simpl. rewrite Hfetch. simpl.
  destruct (contains (ua cfg) text); [reflexivity|].
  assert (Hb : has_block_word cfg env text = true).
  { unfold has_block_word. rewrite Hblock.
    apply existsb_exists. exists word. split; assumption. }
  now rewrite Hb.
Qed.

(** C8: when nothing suppresses the article, [check_for_matches]
    splits the text at newlines and keeps, in order, exactly the
    paragraphs that hold a word of [matchwords] (both lowered) or a
    form of [matchwords_case_sensitive] (as it is). *)
Theorem check_for_matches_keeps_matching_grafs
    (a : Article) (st : State) (text : ustring)
    (Hfresh : matching_grafs a = [])
    (Hfetch : fetch_plaintext env (url a) = inr text)
    (Hua : contains (ua cfg) text = false)
    (Hwords : has_block_word cfg env text = false)
    (Hlist : blocklist_loaded cfg
             && blocklist_check cfg (set_plaintext a text) = false) :
  exists a',
    check_for_matches cfg env a st
    = (inr a', logged st [HttpGet (url a)])
    /\ matching_grafs a'
       = filter
           (fun graf =>
              existsb (fun word => contains (lower (tolower env) word)
                                            (lower (tolower env) graf))
                      (matchwords cfg)
              || existsb (fun word => contains word graf)
                         (matchwords_case_sensitive cfg))
           (split newline text).
Proof.
  eexists. split.
  - unfold check_for_matches, clean, bind, emit, lift, ret, logged.
    simpl. rewrite Hfetch. simpl.
    rewrite Hua, Hwords, Hlist.
    rewrite collect_grafs. reflexivity.
  - simpl. rewrite Hfresh. reflexivity.
Qed.

End MatchEvaluator.

(** ** Rendering *)

Lemma rendered_app (l l' : list Event) :
  rendered (l ++ l') = rendered l ++ rendered l'.
Proof. unfold rendered. apply flat_map_app. Qed.

Lemma rendered_Render (f : ustring -> Img) (l : list ustring) :
  rendered (map (fun graf => Render (f graf)) l) = map f l.
Proof. induction l as [|g l IH]; simpl; [|rewrite IH]; reflexivity. Qed.

Lemma same_renders_refl (st : State) : same_renders st st.
Proof. reflexivity. Qed.

Lemma same_renders_trans (a b c : State) :
  same_renders a b -> same_renders b c -> same_renders a c.
Proof. unfold same_renders; congruence. Qed.

Lemma same_renders_emit (e : Event) :
  (forall img, e <> Render img) -> preserves same_renders (emit e).
Proof.
  intros He st; unfold same_renders, emit; simpl.
  rewrite rendered_app. destruct e; simpl; try apply app_nil_r.
  now contradiction (He img).
Qed.

Lemma set_imgs_same (a : Article) : set_imgs a (imgs a) = a.
Proof. destruct a; reflexivity. Qed.

Lemma render_loop (square : bool) (grafs : list ustring) (a : Article)
    (st : State) :
  for_each grafs
    (fun a graf =>
       emit (Render (render_img graf square)) ;;
       ret (set_imgs a (imgs a ++ [render_img graf square])))
    a st
  = (inr (set_imgs a (imgs a ++ map (fun g => render_img g square) grafs)),
     logged st (map (fun g => Render (render_img g square)) grafs)).
Proof.
  revert a st; induction grafs as [|g grafs IH]; intros a st; simpl.
  - now rewrite app_nil_r, set_imgs_same, logged_nil.
  - unfold bind at 1. unfold bind at 1. simpl.
    rewrite IH. f_equal.
    + destruct a; unfold set_imgs; simpl. now rewrite <- app_assoc.
    + unfold logged; simpl. now rewrite <- app_assoc.
Qed.

Section Rendering.

Variable cfg : Config.
Variable env : Env.

(** C4, as the code has it: [tweet] renders exactly the first four
    matching paragraphs, in order, so at most four images; [square] is
    off when the article has exactly one matching paragraph and on
    otherwise.  This holds whether or not the upload and the post
    succeed. *)
Theorem tweet_renders_first_four
    (a : Article) (in_reply_to_status_id : option Z) (st : State) :
  let square := negb (Nat.eqb (List.length (matching_grafs a)) 1) in
  rendered (log (snd (tweet cfg env a in_reply_to_status_id st)))
  = rendered (log st)
    ++ map (fun graf => render_img graf square)
           (firstn 4 (matching_grafs a))
  /\ List.length (firstn 4 (matching_grafs a)) <= 4.
Proof.
  intros square. split; [|apply firstn_le_length].
  unfold tweet.
  replace (if Nat.eqb (List.length (matching_grafs a)) 1
           then false else true) with square
    by (unfold square; now destruct (Nat.eqb _ 1)).
  erewrite bind_ok by apply render_loop.
  match goal with
  | |- rendered (log (snd (?m ?s))) = _ =>
      assert (Hrest : preserves same_renders m)
        by repeat preserves_step same_renders_refl same_renders_trans
                                 same_renders_emit
  end.
  rewrite (Hrest _). unfold logged; simpl.
  now rewrite rendered_app, rendered_Render.
Qed.

End Rendering.

(** ** URL canonicalizer *)

Lemma set_url_same (a : Article) : set_url a (url a) = a.
Proof. destruct a; reflexivity. Qed.

Lemma delicate_set_url (a : Article) (v : ustring) :
  delicate (set_url a v) = delicate a.
Proof. reflexivity. Qed.

Lemma redirects_set_url (a : Article) (v : ustring) :
  redirects (set_url a v) = redirects a.
Proof. reflexivity. Qed.

Lemma url_set_url (a : Article) (v : ustring) : url (set_url a v) = v.
Proof. reflexivity. Qed.

Lemma set_url_set_url (a : Article) (v w : ustring) :
  set_url (set_url a v) w = set_url a w.
Proof. reflexivity. Qed.

Section Canonicalizer.

Variable env : Env.

(** C9, as the code has it: canonicalizing the article again gives
    the same article when the feed does not use redirect links, and
    also when it does and [requests.head] of the canonical url ends at
    that url. *)
Theorem canonicalize_url_idempotent
    (a a1 : Article) (st st1 : State)
    (Hfirst : canonicalize_url env a st = (inr a1, st1))
    (Hhead : redirects a = false
             \/ exists res, requests_head env (url a1) = inr res
                            /\ final_location res = url a1) :
  forall st2, exists st3, canonicalize_url env a1 st2 = (inr a1, st3).
Proof.
  intros st2.
  assert (Hshape : redirects a1 = redirects a
                   /\ delicate a1 = delicate a
                   /\ (delicate a = false ->
                       decruft_url (url a1) = url a1)).
  { revert Hfirst. unfold canonicalize_url, bind, emit, lift, ret.
    destruct (redirects a) eqn:Hr; simpl.
    - destruct (requests_head env (url a)) as [e|res]; [discriminate|].
      rewrite delicate_set_url.
      destruct (delicate a) eqn:Hd; simpl; intros H; injection H as <- _;
        rewrite ?redirects_set_url, ?delicate_set_url, ?url_set_url;
        repeat split; auto; try congruence.
      intros _. apply decruft_url_idempotent.
    - destruct (delicate a) eqn:Hd; simpl; intros H; injection H as <- _;
        rewrite ?redirects_set_url, ?delicate_set_url, ?url_set_url;
        repeat split; auto; try congruence.
      intros _. apply decruft_url_idempotent. }
  destruct Hshape as (Hr & Hd & Hclean).
  assert (Hlast : forall s, exists st3,
             (if negb (delicate a1)
              then ret (set_url a1 (decruft_url (url a1)))
              else ret a1) s = (inr a1, st3)).
  { intros s. rewrite Hd. destruct (delicate a); simpl; eexists.
    - reflexivity.
    - rewrite Hclean, set_url_same by reflexivity. reflexivity. }
  unfold canonicalize_url.
  destruct Hhead as [Hno | (res & Hres & Hloc)].
  - rewrite Hr, Hno. erewrite bind_ok by reflexivity. apply Hlast.
  - destruct (redirects a1).
    + erewrite bind_ok; [apply Hlast|].
      unfold bind, emit, lift, ret. simpl.
      rewrite Hres, Hloc, set_url_same. reflexivity.
    + erewrite bind_ok by reflexivity. apply Hlast.
Qed.

End Canonicalizer.

(** ** Dedup store *)

Lemma has_duplicates_false (l : list ustring) :
  has_duplicates l = false -> NoDup l.
Proof.
  induction l as [|x l IH]; simpl; [constructor|].
  intros H. apply orb_false_iff in H as [Hx Hl].
  constructor; [|auto].
  intros Hin. 
  assert (existsb (eqb x) l = true); [|congruence].
  apply existsb_exists. exists x. split; [exact Hin | apply eqb_refl].
Qed.

Lemma existsb_url_false (rows : list ArticleRow.t) (v : ustring) :
  existsb (fun r => eqb (ArticleRow.url r) v) rows = false ->
  ~ In v (map ArticleRow.url rows).
Proof.
  intros H Hin. apply in_map_iff in Hin as (r & Hr & Hin).
  assert (existsb (fun r => eqb (ArticleRow.url r) v) rows = true); [|congruence].
  apply existsb_exists. exists r. split; [exact Hin|].
  apply eqb_eq, Hr.
Qed.

Lemma NoDup_snoc {A : Type} (l : list A) (x : A) :
  NoDup l -> ~ In x l -> NoDup (l ++ [x]).
Proof.
  intros Hl Hx. apply NoDup_app; [exact Hl | repeat constructor; intros [] |].
  intros a Ha [<-|[]]. contradiction.
Qed.

(** A store built by the program has the unique index, and no url
    twice. *)
Lemma reachable_unique (d : Db) :
  reachable d ->
  idx_articles_url d = true /\ NoDup (map ArticleRow.url (articles d)).
Proof.
  induction 1 as [| d _ [Hidx Hnd]
                  | d d' vt vo vu vtw vr vid _ [Hidx Hnd] Hins].
  - split; [reflexivity | constructor].
  - unfold setup_db. rewrite Hidx. auto.
  - unfold insert in Hins. rewrite Hidx in Hins. simpl in Hins.
    destruct (existsb _ (articles d)) eqn:Hex; [discriminate|].
    injection Hins as <-. simpl. split; [reflexivity|].
    rewrite map_app. simpl.
    apply NoDup_snoc; [exact Hnd | apply existsb_url_false, Hex].
Qed.

Lemma select_by_url_In (d : Db) (v : ustring) :
  select_by_url d v <> [] <-> In v (map ArticleRow.url (articles d)).
Proof.
  unfold select_by_url. split.
  - destruct (filter _ (articles d)) as [|r rs] eqn:Hf; [congruence|].
    intros _. assert (Hin : In r (filter (fun r => eqb (ArticleRow.url r) v)
                                         (articles d)))
      by (rewrite Hf; left; reflexivity).
    apply filter_In in Hin as [Hin Heq]. apply eqb_eq in Heq; subst v.
    now apply in_map.
  - intros Hin Hnil. apply in_map_iff in Hin as (r & Hr & Hin).
    assert (Hin' : In r (filter (fun r => eqb (ArticleRow.url r) v) (articles d))).
    { apply filter_In. split; [exact Hin | apply eqb_eq, Hr]. }
    rewrite Hnil in Hin'. exact Hin'.
Qed.




(** ** Skipping what was seen *)

Lemma keeps_rows_same_db (st st' : State) :
  db st' = db st -> keeps_rows st st'.
Proof. intros H. exists []. now rewrite H, app_nil_r. Qed.

Lemma keeps_rows_refl (st : State) : keeps_rows st st.
Proof. now apply keeps_rows_same_db. Qed.

Lemma keeps_rows_trans (a b c : State) :
  keeps_rows a b -> keeps_rows b c -> keeps_rows a c.
Proof.
  intros [r1 H1] [r2 H2]. exists (r1 ++ r2).
  now rewrite H2, H1, app_assoc.
Qed.

Lemma keeps_rows_seen (st st' : State) (v : ustring) :
  keeps_rows st st' ->
  select_by_url (db st) v <> [] -> select_by_url (db st') v <> [].
Proof.
  intros [rows Hrows] Hseen.
  apply select_by_url_In. apply select_by_url_In in Hseen.
  rewrite Hrows, map_app. apply in_or_app. now left.
Qed.

Section Quiet.

Variable v : ustring.

Lemma quiet_refl (st : State) : quiet_about v st st.
Proof.
  split; [apply keeps_rows_refl|].
  exists []. split; [now rewrite app_nil_r | intros []].
Qed.

Lemma quiet_trans (a b c : State) :
  quiet_about v a b -> quiet_about v b c -> quiet_about v a c.
Proof.
  intros [Hk1 (e1 & Hl1 & Hn1)] [Hk2 (e2 & Hl2 & Hn2)].
  split; [eapply keeps_rows_trans; eassumption|].
  exists (e1 ++ e2). split.
  - now rewrite Hl2, Hl1, app_assoc.
  - intros Hin. apply in_app_or in Hin as [Hin|Hin]; auto.
Qed.

Lemma quiet_emit (e : Event) :
  e <> HttpGet v -> preserves (quiet_about v) (emit e).
Proof.
  intros He st. split; [now apply keeps_rows_same_db|].
  exists [e]. split; [reflexivity|].
  intros [H|[]]. now apply He.
Qed.

Lemma quiet_sleep (n : Z) : preserves (quiet_about v) (sleep n).
Proof.
  intros st. split; [now apply keeps_rows_same_db|].
  exists []. split; [simpl; now rewrite app_nil_r | intros []].
Qed.

Lemma quiet_record_article (a : Article) (tid : option ustring) :
  preserves (quiet_about v) (record_article a tid).
Proof.
  intros st.
  unfold record_article, try_except, bind, get_db, utcnow, lift, put_db,
    sleep, emit.
  simpl.
  destruct (insert (db st) (title a) (outlet a) (url a) (tweeted a)
                   (clock st) tid) as [e|d'] eqn:Hins; simpl.
  - destruct e; simpl; (split; [now apply keeps_rows_same_db|]);
      first
        [ exists []; split; [simpl; now rewrite app_nil_r | intros []]
        | eexists [_]; split;
          [reflexivity | intros [H|[]]; discriminate] ].
  - unfold insert in Hins.
    destruct (idx_articles_url (db st) && _); [discriminate|].
    injection Hins as <-. split.
    + eexists; reflexivity.
    + exists []. split; [simpl; now rewrite app_nil_r | intros []].
Qed.

Variable cfg : Config.
Variable env : Env.

Ltac quiet := preserves_step quiet_refl quiet_trans quiet_emit.

Lemma quiet_tweet (a : Article) (parent : option Z) :
  preserves (quiet_about v) (tweet cfg env a parent).
Proof. unfold tweet. repeat quiet. Qed.

Lemma quiet_thread_parent (a : Article) :
  preserves (quiet_about v) (thread_parent a).
Proof. unfold thread_parent. repeat quiet. Qed.

Lemma quiet_check_for_matches (a : Article) :
  url a <> v -> preserves (quiet_about v) (check_for_matches cfg env a).
Proof. intros Hv. unfold check_for_matches, clean. repeat quiet. Qed.

Lemma quiet_process_article (total counter : nat) (a : Article) :
  url a <> v ->
  preserves (quiet_about v) (process_article cfg env total counter a).
Proof.
  intros Hv. unfold process_article.
  repeat first
    [ apply quiet_record_article
    | apply quiet_tweet
    | apply quiet_thread_parent
    | apply quiet_check_for_matches; exact Hv
    | quiet ].
Qed.

End Quiet.

Section Orchestrator.

Variable cfg : Config.
Variable env : Env.

(** An article whose url has a row leaves the loop body at
    [continue]: nothing is fetched, posted or written. *)
Lemma process_article_seen (total counter : nat) (a : Article)
    (st : State) :
  select_by_url (db st) (url a) <> [] ->
  process_article cfg env total counter a st = (inr tt, st).
Proof.
  intros Hseen. unfold process_article, bind, get_db.
  destruct (select_by_url (db st) (url a)); [congruence | reflexivity].
Qed.

Lemma quiet_process_articles (v : ustring) (deduped : list Article) :
  forall (total counter : nat) (st : State),
    select_by_url (db st) v <> [] ->
    quiet_about v st
      (snd (process_articles cfg env total counter deduped st)).
Proof.
  induction deduped as [|x rest IH]; intros total counter st Hseen;
    simpl.
  - apply quiet_refl.
  - assert (Hstep : quiet_about v st
                      (snd (process_article cfg env total counter x st))).
    { destruct (eqb (url x) v) eqn:Heq.
      - apply eqb_eq in Heq; subst v.
        rewrite process_article_seen by exact Hseen. apply quiet_refl.
      - apply eqb_neq in Heq. now apply quiet_process_article. }
    unfold bind.
    destruct (process_article cfg env total counter x st)
      as [[e|[]] st1]; simpl in *; [exact Hstep|].
    eapply quiet_trans; [exact Hstep|].
    apply IH. eapply keeps_rows_seen; [apply Hstep | exact Hseen].
Qed.

Lemma process_articles_app (l1 l2 : list Article) :
  forall (total counter : nat) (st : State),
    process_articles cfg env total counter (l1 ++ l2) st
    = (process_articles cfg env total counter l1 ;;
       process_articles cfg env total (counter + List.length l1) l2) st.
Proof.
  induction l1 as [|x l1 IH]; intros total counter st; simpl.
  - now rewrite Nat.add_0_r.
  - unfold bind.
    destruct (process_article cfg env total counter x st)
      as [[e|[]] st1]; [reflexivity|].
    rewrite IH. unfold bind. now rewrite Nat.add_succ_r.
Qed.

(** C6: an article of the pass whose url already has a row is
    skipped at its turn, with no call made and no row written; the
    pass runs as the pass over the other articles does (each keeping
    its counter); and no fetch of that url is made anywhere in the
    pass. *)
Theorem seen_article_is_skipped
    (total counter : nat) (l1 l2 : list Article) (a : Article)
    (st : State)
    (Hseen : select_by_url (db st) (url a) <> []) :
  let at_turn := snd (process_articles cfg env total counter l1 st) in
  process_article cfg env total (counter + List.length l1) a at_turn
  = (inr tt, at_turn)
  /\ process_articles cfg env total counter (l1 ++ a :: l2) st
     = (process_articles cfg env total counter l1 ;;
        process_articles cfg env total (S (counter + List.length l1)) l2)
         st
  /\ exists evs,
       log (snd (process_articles cfg env total counter (l1 ++ a :: l2)
                                  st))
       = log st ++ evs
       /\ ~ In (HttpGet (url a)) evs.
Proof.
  intros at_turn.
  assert (Hturn : select_by_url (db at_turn) (url a) <> []).
  { eapply keeps_rows_seen; [|exact Hseen].
    apply (quiet_process_articles (url a) l1 total counter st Hseen). }
  split; [now apply process_article_seen|]. split.
  - rewrite process_articles_app. unfold bind.
    subst at_turn.
    destruct (process_articles cfg env total counter l1 st)
      as [[e|[]] st1]; [reflexivity|].
    simpl in Hturn. simpl.
    erewrite bind_ok by (apply process_article_seen; exact Hturn).
    reflexivity.
  - apply (quiet_process_articles (url a) (l1 ++ a :: l2) total counter
                                  st Hseen).
Qed.

(** C1, what the code does: when the fetch of an unseen article
    raises, the loop body prints the trouble and goes on to the
    insert, so a row with [tweeted] false and a null [tweet_id] is
    written for the url, and the body ends normally. *)
Theorem failed_fetch_is_recorded
    (total counter : nat) (a : Article) (st : State) (e : Exn)
    (Hnew : select_by_url (db st) (url a) = [])
    (Hfresh : matching_grafs a = [])
    (Hfetch : fetch_plaintext env (url a) = inl e) :
  process_article cfg env total counter a st
  = (inr tt,
     mkState
       (mkDb (articles (db st)
              ++ [ArticleRow.mk (next_id (db st)) (title a) (outlet a) (url a)
                         (tweeted a) (clock st) None])
             (idx_articles_url (db st)))
       (clock st + 1)
       (log st ++ [Print (Checking (outlet a) counter total);
                   HttpGet (url a);
                   Print HavingTrouble])).
Proof.
  assert (Hex : existsb (fun r => eqb (ArticleRow.url r) (url a))
                        (articles (db st)) = false).
  { destruct (existsb _ (articles (db st))) eqn:Hex; [|reflexivity].
    apply existsb_exists in Hex as (r & Hin & Heq).
    assert (Hin' : In r (select_by_url (db st) (url a)))
      by (apply filter_In; auto).
    rewrite Hnew in Hin'. contradiction. }
  unfold process_article, bind at 1, get_db. rewrite Hnew. simpl.
  unfold check_for_matches, clean, record_article, try_except, bind,
    emit, lift, ret, get_db, utcnow, put_db, sleep, insert.
  simpl. rewrite Hfetch. simpl. rewrite Hfresh. simpl.
  rewrite Hex, andb_false_r. simpl.
  now rewrite <- !app_assoc.
Qed.

(** C2, what the code does: when the last row of the same title in
    the window has a null [tweet_id], the lookup raises [TypeError]
    at [int(tweet_id)]; nothing catches it. *)
Theorem thread_parent_null_raises
    (a : Article) (st : State) (older : list (option ustring))
    (Hrows : select_same_title (db st) (clock st) (title a)
             = older ++ [None]) :
  thread_parent a st = (inl TypeError, st).
Proof.
  unfold thread_parent, bind, get_db, utcnow, lift. simpl.
  rewrite Hrows, last_last, length_app. simpl.
  rewrite Nat.add_1_r. reflexivity.
Qed.

(** The lookup on the other stores: no row of the title in the
    window gives [None]; a last row with a run of digits gives its
    number. *)
Lemma thread_parent_none (a : Article) (st : State) :
  select_same_title (db st) (clock st) (title a) = [] ->
  thread_parent a st = (inr None, st).
Proof.
  intros Hrows. unfold thread_parent, bind, get_db, utcnow. simpl.
  now rewrite Hrows.
Qed.

Lemma thread_parent_last (a : Article) (st : State)
    (older : list (option ustring)) (tid : ustring) (n : Z) :
  select_same_title (db st) (clock st) (title a) = older ++ [Some tid] ->
  int (Some tid) = inr n ->
  thread_parent a st = (inr (Some n), st).
Proof.
  intros Hrows Hint.
  unfold thread_parent, bind, get_db, utcnow, lift, ret. simpl.
  rewrite Hrows, last_last, length_app, Hint, Nat.add_1_r.
  reflexivity.
Qed.

End Orchestrator.

(** * The properties on sample runs *)

Import Sample.

(** The block word [Secret] is found in a page that also holds the
    matchword [x]. *)
Lemma block_word_suppresses_article_witness :
  check_for_matches config (world direct)
    (article (u "Leak") (u "http://ex.com/leak")) start
  = (inr (set_plaintext (article (u "Leak") (u "http://ex.com/leak"))
                        (u "an x and a SECRET plan")),
     logged start [HttpGet (u "http://ex.com/leak")])
  /\ matching_grafs
       (set_plaintext (article (u "Leak") (u "http://ex.com/leak"))
                      (u "an x and a SECRET plan")) = [].
Proof.
  apply (block_word_suppresses_article config (world direct)
           (article (u "Leak") (u "http://ex.com/leak")) start
           (u "an x and a SECRET plan") [u "Secret"] (u "Secret")).
  - reflexivity.
  - vm_compute; reflexivity.
  - reflexivity.
  - left; reflexivity.
  - vm_compute; reflexivity.
Defined.

(** Of the two paragraphs of the sample page only the one that holds a
    surface form of FBI is kept. *)
Lemma check_for_matches_keeps_matching_grafs_witness :
  exists a',
    check_for_matches config (world direct)
      (article (u "Y") (u "http://ex.com/fbi")) start
    = (inr a', logged start [HttpGet (u "http://ex.com/fbi")])
    /\ matching_grafs a' = [u "The FBI said so."].
Proof.
  destruct (check_for_matches_keeps_matching_grafs config (world direct)
              (article (u "Y") (u "http://ex.com/fbi")) start fbi_text)
    as (a' & Hrun & Hgrafs).
  - reflexivity.
  - vm_compute; reflexivity.
  - vm_compute; reflexivity.
  - vm_compute; reflexivity.
  - vm_compute; reflexivity.
  - exists a'. split; [exact Hrun|].
    rewrite Hgrafs. vm_compute. reflexivity.
Defined.

(** C4 as written fails: an article with exactly one matching paragraph
    is rendered with [square] off. *)
Lemma single_paragraph_is_not_square :
  List.length
    (matching_grafs
       (set_matching_grafs (article (u "Y") (u "http://ex.com/fbi"))
                           [u "The FBI said so."])) = 1
  /\ map img_square
       (rendered
          (log (snd (tweet config (world direct)
                       (set_matching_grafs
                          (article (u "Y") (u "http://ex.com/fbi"))
                          [u "The FBI said so."])
                       None start))))
     = [false].
Proof. split; vm_compute; reflexivity. Qed.

(** C9 as written fails: with redirect links the canonical url of the
    sample link is resolved once more, to another page. *)
Lemma canonicalize_url_not_idempotent :
  exists a1 st1 a2 st2,
    canonicalize_url (world hops)
      (mkArticle (u "Outlet") (u "T") (u "http://feeds.ex.com/r/1")
                 false true [] [] false None) start
    = (inr a1, st1)
    /\ canonicalize_url (world hops) a1 st1 = (inr a2, st2)
    /\ url a1 = u "http://ex.com/a"
    /\ url a2 = u "http://ex.com/b"
    /\ a2 <> a1.
Proof.
  do 4 eexists.
  split; [vm_compute; reflexivity|].
  split; [vm_compute; reflexivity|].
  split; [reflexivity|]. split; [reflexivity|].
  intros H. apply (f_equal url) in H. vm_compute in H. discriminate H.
Qed.

(** Where the site serves the bare url itself, canonicalizing again
    changes nothing. *)
Lemma canonicalize_url_idempotent_witness :
  exists st3,
    canonicalize_url (world settles)
      (mkArticle (u "Outlet") (u "T") (u "http://ex.com/a")
                 false true [] [] false None) start
    = (inr (mkArticle (u "Outlet") (u "T") (u "http://ex.com/a")
                      false true [] [] false None), st3).
Proof.
  apply (canonicalize_url_idempotent (world settles)
           (mkArticle (u "Outlet") (u "T") (u "http://feeds.ex.com/r/1")
                      false true [] [] false None)
           (mkArticle (u "Outlet") (u "T") (u "http://ex.com/a")
                      false true [] [] false None)
           start (logged start [HttpHead (u "http://feeds.ex.com/r/1")])).
  - vm_compute; reflexivity.
  - right. exists (mkResponse None (u "http://ex.com/a")).
    split; vm_compute; reflexivity.
Defined.


(** A pass over the dull article again and a new one: only the new one
    is fetched. *)
Lemma seen_article_is_skipped_witness :
  exists evs,
    log (snd (process_articles config (world direct) 2 1
                ([] ++ article (u "X") (u "http://ex.com/dull")
                    :: [article (u "Y") (u "http://ex.com/fbi")])
                after_dull))
    = log after_dull ++ evs
    /\ ~ In (HttpGet (u "http://ex.com/dull")) evs.
Proof.
  pose proof (seen_article_is_skipped config (world direct) 2 1 []
                [article (u "Y") (u "http://ex.com/fbi")]
                (article (u "X") (u "http://ex.com/dull")) after_dull) as H.
  cbv zeta in H.
  destruct H as (_ & _ & H); [vm_compute; discriminate | exact H].
Defined.

(** The site of the sample article is down: its url gets a row. *)
Lemma failed_fetch_is_recorded_witness :
  process_article config (world direct) 1 1
    (article (u "Down") (u "http://ex.com/down")) start
  = (inr tt,
     mkState
       (mkDb [ArticleRow.mk 1 (u "Down") (u "Outlet") (u "http://ex.com/down")
                     false 1700000000 None] true)
       1700000001
       [Print (Checking (u "Outlet") 1 1);
        HttpGet (u "http://ex.com/down");
        Print HavingTrouble]).
Proof.
  apply (failed_fetch_is_recorded config (world direct) 1 1
           (article (u "Down") (u "http://ex.com/down")) start
           RequestException).
  - reflexivity.
  - reflexivity.
  - vm_compute; reflexivity.
Defined.

(** After that pass the url counts as seen: a later pass makes no call
    for it and changes nothing, so the article is never tried again. *)
Example failed_article_is_not_retried :
  process_articles config (world direct) 1 1
    [article (u "Down") (u "http://ex.com/down")] (later after_down 3600)
  = (inr tt, later after_down 3600).
Proof. vm_compute; reflexivity. Qed.

(** A day after the dull article titled X was recorded, the lookup for
    a new article of that title raises. *)
Lemma thread_parent_null_raises_witness :
  thread_parent (article (u "X") (u "http://ex.com/a"))
                (later after_dull 86400)
  = (inl TypeError, later after_dull 86400).
Proof.
  apply (thread_parent_null_raises
           (article (u "X") (u "http://ex.com/a"))
           (later after_dull 86400) []).
  vm_compute; reflexivity.
Defined.

(** On that day a pass over the new article titled X and one more
    article stops at the first with [TypeError]: nothing is posted, no
    row is written, and the second article is not reached. *)
Example null_thread_parent_aborts_pass :
  process_articles config (world direct) 2 1
    [article (u "X") (u "http://ex.com/a");
     article (u "Y") (u "http://ex.com/fbi")]
    (later after_dull 86400)
  = (inl TypeError,
     logged (later after_dull 86400)
            [Print (Checking (u "Outlet") 1 2);
             HttpGet (u "http://ex.com/a");
             Print GotOne]).
Proof. vm_compute; reflexivity. Qed.

(** The end-to-end scenario: one entry with a tracking query, a page
    that holds the matchword. *)
Example end_to_end :
  process_feed config (world direct) (u "Outlet")
    [mkEntry (u "X") (u "http://ex.com/a?utm=1")] false false start
  = (inr tt,
     mkState
       (mkDb [ArticleRow.mk 1 (u "X") (u "Outlet") (u "http://ex.com/a") true
                     1700000000 (Some (u "1001"))] true)
       1700000001
       [Print (Checking (u "Outlet") 1 1);
        HttpGet (u "http://ex.com/a");
        Print GotOne;
        Render (render_img (u "has an x in it") false);
        UploadMedia (render_img (u "has an x in it") false);
        UpdateStatus (u "Outlet: X http://ex.com/a") [7%Z] None;
        Print (Status (u "Outlet: X http://ex.com/a"))]).
Proof. vm_compute; reflexivity. Qed.

(** * More of the code *)

(** ** Surface forms and word lists *)

Lemma contains_trans (a b c : ustring) :
  contains a b = true -> contains b c = true -> contains a c = true.
Proof.
  rewrite !contains_spec.
  intros (p1 & q1 & ->) (p2 & q2 & ->).
  exists (p2 ++ p1), (q1 ++ q2). now rewrite <- !app_assoc.
Qed.

Lemma contains_length (w s : ustring) :
  contains w s = true -> List.length w <= List.length s.
Proof.
  rewrite contains_spec. intros (pre & post & ->).
  rewrite !length_app. lia.
Qed.

Lemma in_generate_matchwords (word form : ustring) :
  In form (generate_matchwords word) ->
  exists p ending s,
    In [p] prefix /\ In ending endings /\ In [s] suffix
    /\ form = [p] ++ word ++ ending ++ [s].
Proof.
  rewrite generate_matchwords_shape. intros Hin.
  apply in_map_iff in Hin as ([m [p s]] & <- & Hin).
  apply in_prod_iff in Hin as [Hm Hc].
  pose proof single_char_affixes as Hall. rewrite Forall_forall in Hall.
  destruct (Hall _ Hc) as (a & b & Ha & Hb). simpl in Ha, Hb. subst p s.
  apply in_prod_iff in Hc as [Hp Hs].
  exists a, m, b. repeat split; auto.
  unfold surface; simpl. now rewrite <- app_assoc.
Qed.

Lemma endings_short (ending : ustring) :
  In ending endings -> List.length ending <= 2.
Proof.
  unfold endings. simpl.
  intros [<-|[<-|[<-|[<-|[<-|[]]]]]]; simpl; lia.
Qed.

Lemma case_sensitive_match_holds_root_aux (word form graf : ustring) :
  In form (generate_matchwords word) -> contains form graf = true ->
  contains word graf = true
  /\ List.length word + 2 <= List.length graf.
Proof.
  intros Hin Hc.
  destruct (in_generate_matchwords _ _ Hin)
    as (p & ending & s & _ & _ & _ & ->).
  split.
  - apply contains_trans with (2 := Hc).
    apply contains_spec. exists [p], (ending ++ [s]). reflexivity.
  - apply contains_length in Hc.
    rewrite !length_app in Hc. simpl in Hc. lia.
Qed.

(** X1: a paragraph that holds a surface form of a root word holds the
    root word itself, and is at least two characters longer than it (one
    prefix and one suffix character); a paragraph that is the root word
    alone is therefore not matched. *)
Theorem case_sensitive_match_holds_root (word graf : ustring)
    (Hmatch : existsb (fun form => contains form graf)
                      (generate_matchwords word) = true) :
  contains word graf = true
  /\ List.length word + 2 <= List.length graf.
Proof.
  apply existsb_exists in Hmatch as (form & Hin & Hc).
  now apply case_sensitive_match_holds_root_aux with (form := form).
Qed.

Lemma expand_case_sensitive_flat_map (raw : list ustring) :
  expand_case_sensitive raw = flat_map generate_matchwords raw.
Proof.
  unfold expand_case_sensitive. now rewrite fold_left_app_flat_map.
Qed.

(** X2: with the case-sensitive list expanded as [main] does, a
    paragraph passes the test of [check_for_matches] only if it holds a
    word of the case-insensitive list (both lowered) or holds one of the
    case-sensitive roots as written and is at least two characters
    longer than that root. *)
Theorem graf_matches_only_listed_words
    (cfg : Config) (env : Env) (raw : list ustring) (graf : ustring)
    (Hexpanded : matchwords_case_sensitive cfg = expand_case_sensitive raw)
    (Hmatch : graf_matches cfg env graf = true) :
  (exists word, In word (matchwords cfg)
                /\ contains (lower (tolower env) word)
                            (lower (tolower env) graf) = true)
  \/ (exists root, In root raw
                   /\ contains root graf = true
                   /\ List.length root + 2 <= List.length graf).
Proof.
  unfold graf_matches in Hmatch.
  apply orb_true_iff in Hmatch as [H|H].
  - left. apply existsb_exists in H as (word & Hin & Hc). eauto.
  - right. rewrite Hexpanded, expand_case_sensitive_flat_map in H.
    apply existsb_exists in H as (form & Hin & Hc).
    apply in_flat_map in Hin as (root & Hroot & Hform).
    exists root. split; [exact Hroot|].
    apply case_sensitive_match_holds_root_aux with (form := form); assumption.
Qed.

Lemma split_app_sep (sep : char) (g rest : ustring) :
  ~ In sep g -> split sep (g ++ sep :: rest) = g :: split sep rest.
Proof.
  induction g as [|c g IH]; intros Hnot; simpl.
  - unfold char_eqb. now rewrite N.eqb_refl.
  - destruct (char_eqb c sep) eqn:Hc.
    + apply N.eqb_eq in Hc. exfalso. apply Hnot. now left.
    + rewrite IH; [reflexivity|]. intros H. apply Hnot. now right.
Qed.

Lemma split_no_sep_id (sep : char) (g : ustring) :
  ~ In sep g -> split sep g = [g].
Proof.
  induction g as [|c g IH]; intros Hnot; simpl; [reflexivity|].
  destruct (char_eqb c sep) eqn:Hc.
  - apply N.eqb_eq in Hc. exfalso. apply Hnot. now left.
  - rewrite IH; [reflexivity|]. intros H. apply Hnot. now right.
Qed.

Lemma split_join (sep : char) (l : list ustring) :
  Forall (fun g => ~ In sep g) l -> l <> [] ->
  split sep (join sep l) = l.
Proof.
  induction l as [|g l IH]; intros Hall Hnil; [congruence|].
  inversion Hall as [|? ? Hg Hl]; subst.
  destruct l as [|g' l].
  - simpl. now apply split_no_sep_id.
  - change (join sep (g :: g' :: l)) with (g ++ sep :: join sep (g' :: l)).
    rewrite split_app_sep by exact Hg.
    rewrite IH; [reflexivity | exact Hl | discriminate].
Qed.

Lemma join_snoc (sep : char) (l : list ustring) :
  l <> [] -> join sep (l ++ [[]]) = join sep l ++ [sep].
Proof.
  induction l as [|g l IH]; intros Hnil; [congruence|].
  destruct l as [|g' l].
  - reflexivity.
  - change (join sep ((g :: g' :: l) ++ [[]]))
      with (g ++ sep :: join sep ((g' :: l) ++ [[]])).
    rewrite IH by discriminate.
    change (join sep (g :: g' :: l)) with (g ++ sep :: join sep (g' :: l)).
    now rewrite <- app_assoc.
Qed.

Lemma in_split_contains (sep : char) (s g : ustring) :
  In g (split sep s) -> contains g s = true.
Proof.
  revert g; induction s as [|c s IH]; intros g; simpl.
  - intros [<-|[]]. reflexivity.
  - destruct (char_eqb c sep) eqn:Hc.
    + intros [<-|Hin]; [reflexivity|].
      rewrite (IH _ Hin). apply orb_true_r.
    + destruct (hd_split sep s) as (rest & Hs & _).
      pose proof (split_not_nil sep s) as Hnil.
      destruct (split sep s) as [|g0 gs]; [contradiction|].
      simpl in Hs. intros [<-|Hin].
      * simpl. unfold char_eqb at 1. rewrite N.eqb_refl. simpl.
        replace (startswith g0 s) with true; [reflexivity|].
        symmetry. apply startswith_spec. eauto.
      * rewrite (IH g) by (now right). apply orb_true_r.
Qed.

Lemma nonblank_lines_filter (l : list ustring) :
  Forall (fun w => w <> []) l ->
  filter (fun w => match w with [] => false | _ :: _ => true end) l = l.
Proof.
  induction 1 as [|w l Hw _ IH]; simpl; [reflexivity|].
  destruct w; [congruence | now rewrite IH].
Qed.

(** X3: the list files are read line by line, blank lines dropped: no
    loaded word is empty or holds a newline; and a file written with
    one word per line (words not empty, without newline), with or
    without a newline at its end, loads exactly those words in order. *)
Theorem nonblank_lines_round_trip (text : ustring) (ws : list ustring)
    (Hws : Forall (fun w => w <> [] /\ ~ In newline w) ws) :
  Forall (fun w => w <> [] /\ ~ In newline w) (nonblank_lines text)
  /\ nonblank_lines (join newline ws) = ws
  /\ nonblank_lines (join newline ws ++ [newline]) = ws.
Proof.
  assert (Hne : Forall (fun w : ustring => w <> []) ws)
    by (eapply Forall_impl; [|exact Hws]; now intros w [H _]).
  assert (Hnl : Forall (fun w : ustring => ~ In newline w) ws)
    by (eapply Forall_impl; [|exact Hws]; now intros w [_ H]).
  split; [|split].
  - unfold nonblank_lines. apply Forall_forall. intros w Hin.
    apply filter_In in Hin as [Hin Hw].
    pose proof (split_no_sep newline text) as Hall.
    rewrite Forall_forall in Hall.
    split; [destruct w; [discriminate | discriminate] | now apply Hall].
  - unfold nonblank_lines. destruct ws as [|w ws]; [reflexivity|].
    rewrite split_join by (auto; discriminate).
    now apply nonblank_lines_filter.
  - unfold nonblank_lines. destruct ws as [|w ws]; [reflexivity|].
    rewrite <- join_snoc by discriminate.
    rewrite split_join.
    + rewrite filter_app, nonblank_lines_filter by exact Hne.
      apply app_nil_r.
    + apply Forall_app. split; [exact Hnl|].
      constructor; [intros [] | constructor].
    + discriminate.
Qed.

Lemma nonblank_lines_round_trip_witness :
  nonblank_lines (join newline [u "leak"; u "source"] ++ [newline])
  = [u "leak"; u "source"].
Proof.
  apply (nonblank_lines_round_trip [] [u "leak"; u "source"]).
  repeat constructor; vm_compute; intuition discriminate.
Defined.

(** ** Match evaluator, every case *)

(** What [check_for_matches] does, whatever the fetch answers. *)
Lemma check_for_matches_run (cfg : Config) (env : Env) (a : Article)
    (st : State) :
  check_for_matches cfg env a st
  = match fetch_plaintext env (url a) with
    | inl e => (inl e, logged st [HttpGet (url a)])
    | inr text =>
        (inr (if suppressed cfg env a text
              then set_plaintext a text
              else set_matching_grafs
                     (set_plaintext a text)
                     (matching_grafs a
                      ++ filter (graf_matches cfg env)
                                (split newline text))),
         logged st [HttpGet (url a)])
    end.
Proof.
  unfold check_for_matches, clean, bind, emit, lift, ret, logged, suppressed.
  simpl. destruct (fetch_plaintext env (url a)) as [e|text]; simpl;
    [reflexivity|].
  destruct (contains (ua cfg) text); simpl; [reflexivity|].
  destruct (has_block_word cfg env text); simpl; [reflexivity|].
  destruct (blocklist_loaded cfg && blocklist_check cfg (set_plaintext a text));
    [reflexivity|].
  now rewrite collect_grafs.
Qed.

(** X4: whatever the lists and the block tests are, every paragraph that
    [check_for_matches] reports for a new article is a line of the
    fetched text: it holds no newline, it occurs in the text, and it
    passes the matchword test. *)
Theorem reported_paragraphs_are_lines_of_the_text
    (cfg : Config) (env : Env) (a a' : Article) (st st' : State)
    (Hfresh : matching_grafs a = [])
    (Hrun : check_for_matches cfg env a st = (inr a', st')) :
  exists text,
    fetch_plaintext env (url a) = inr text
    /\ plaintext a' = Some text
    /\ Forall (fun graf => ~ In newline graf
                           /\ contains graf text = true
                           /\ graf_matches cfg env graf = true)
              (matching_grafs a').
Proof.
  rewrite check_for_matches_run in Hrun.
  destruct (fetch_plaintext env (url a)) as [e|text]; [discriminate|].
  injection Hrun as <- _. exists text. split; [reflexivity|].
  destruct (suppressed cfg env a text); simpl.
  - rewrite Hfresh. repeat split. constructor.
  - rewrite Hfresh. simpl. split; [reflexivity|].
    apply Forall_forall. intros graf Hin.
    apply filter_In in Hin as [Hin Hm].
    pose proof (split_no_sep newline text) as Hall.
    rewrite Forall_forall in Hall.
    repeat split; [now apply Hall | | exact Hm].
    now apply in_split_contains with (sep := newline).
Qed.

Lemma reported_paragraphs_are_lines_of_the_text_witness :
  exists text,
    fetch_plaintext (Sample.world Sample.direct) (u "http://ex.com/fbi")
    = inr text
    /\ plaintext
         (set_matching_grafs
            (set_plaintext
               (Sample.article (u "Y") (u "http://ex.com/fbi"))
               Sample.fbi_text)
            [u "The FBI said so."]) = Some text
    /\ Forall (fun graf => ~ In newline graf
                           /\ contains graf text = true
                           /\ graf_matches Sample.config
                                (Sample.world Sample.direct) graf = true)
              [u "The FBI said so."].
Proof.
  apply (reported_paragraphs_are_lines_of_the_text
           Sample.config (Sample.world Sample.direct)
           (Sample.article (u "Y") (u "http://ex.com/fbi"))
           (set_matching_grafs
              (set_plaintext
                 (Sample.article (u "Y") (u "http://ex.com/fbi"))
                 Sample.fbi_text)
              [u "The FBI said so."])
           Sample.start
           (logged Sample.start [HttpGet (u "http://ex.com/fbi")])).
  - reflexivity.
  - vm_compute; reflexivity.
Defined.

Lemma contains_nil_r (w : ustring) : contains w [] = true -> w = [].
Proof. destruct w; simpl; [reflexivity | discriminate]. Qed.

(** X5: with both lists loaded as [main] loads them, the empty
    paragraph passes neither test, so blank lines of an article are
    never reported. *)
Theorem blank_paragraph_never_matches
    (cfg : Config) (env : Env) (list_file list_file_cs : ustring)
    (Hwords : matchwords cfg = nonblank_lines list_file)
    (Hforms : matchwords_case_sensitive cfg
              = expand_case_sensitive (nonblank_lines list_file_cs)) :
  graf_matches cfg env [] = false.
Proof.
  unfold graf_matches. apply orb_false_iff. split.
  - destruct (existsb _ (matchwords cfg)) eqn:H; [|reflexivity].
    apply existsb_exists in H as (w & Hin & Hc).
    apply contains_nil_r in Hc.
    rewrite Hwords in Hin. apply filter_In in Hin as [_ Hw].
    destruct w; [discriminate | discriminate].
  - destruct (existsb _ (matchwords_case_sensitive cfg)) eqn:H;
      [|reflexivity].
    apply existsb_exists in H as (form & Hin & Hc).
    apply contains_nil_r in Hc. subst form.
    rewrite Hforms, expand_case_sensitive_flat_map in Hin.
    apply in_flat_map in Hin as (root & _ & Hin).
    apply in_generate_matchwords in Hin as (p & e & s & _ & _ & _ & H).
    discriminate H.
Qed.

Lemma blank_paragraph_never_matches_witness :
  graf_matches
    (mkConfig false (u "ttn-sample/1.0")
              (nonblank_lines (join newline [u "leak"; u ""; u "source"]))
              (expand_case_sensitive (nonblank_lines (u "FBI")))
              None false (fun _ => false))
    (Sample.world Sample.direct) [] = false.
Proof.
  apply (blank_paragraph_never_matches _ _
           (join newline [u "leak"; u ""; u "source"]) (u "FBI"));
    reflexivity.
Defined.

(** X6: when the user agent string occurs in the fetched text, or the
    loaded blocklist module blocks the article, [check_for_matches]
    returns normally and adds no paragraph, whatever the matchwords
    are. *)
Theorem user_agent_or_blocklist_module_suppresses
    (cfg : Config) (env : Env) (a : Article) (st : State) (text : ustring)
    (Hfetch : fetch_plaintext env (url a) = inr text)
    (Hsup : contains (ua cfg) text = true
            \/ (blocklist_loaded cfg = true
                /\ blocklist_check cfg (set_plaintext a text) = true)) :
  check_for_matches cfg env a st
  = (inr (set_plaintext a text), logged st [HttpGet (url a)])
  /\ matching_grafs (set_plaintext a text) = matching_grafs a.
Proof.
  split; [|reflexivity].
  rewrite check_for_matches_run, Hfetch.
  replace (suppressed cfg env a text) with true; [reflexivity|].
  unfold suppressed. destruct Hsup as [-> | [-> ->]]; [reflexivity|].
  simpl. now rewrite !orb_true_r.
Qed.

Lemma user_agent_or_blocklist_module_suppresses_witness :
  check_for_matches
    (mkConfig false (u "an x") [u "x"] [] None false (fun _ => false))
    (Sample.world Sample.direct)
    (Sample.article (u "X") (u "http://ex.com/a")) Sample.start
  = (inr (set_plaintext (Sample.article (u "X") (u "http://ex.com/a"))
                        (u "has an x in it")),
     logged Sample.start [HttpGet (u "http://ex.com/a")])
  /\ matching_grafs
       (set_plaintext (Sample.article (u "X") (u "http://ex.com/a"))
                      (u "has an x in it"))
     = matching_grafs (Sample.article (u "X") (u "http://ex.com/a")).
Proof.
  apply (user_agent_or_blocklist_module_suppresses
           (mkConfig false (u "an x") [u "x"] [] None false (fun _ => false))
           (Sample.world Sample.direct)
           (Sample.article (u "X") (u "http://ex.com/a")) Sample.start
           (u "has an x in it")).
  - vm_compute; reflexivity.
  - left. vm_compute; reflexivity.
Defined.

(** ** URL cruft removal, the other way round *)

Lemma hd_split_unique (sep : char) (s h r : ustring) :
  s = h ++ r -> ~ In sep h -> (r = [] \/ exists r', r = sep :: r') ->
  hd [] (split sep s) = h.
Proof.
  intros -> Hnot [-> | [r' ->]].
  - rewrite app_nil_r, split_no_sep_id by exact Hnot. reflexivity.
  - rewrite split_app_sep by exact Hnot. reflexivity.
Qed.

Lemma hd_split_app (sep : char) (h t : ustring) :
  ~ In sep h -> hd [] (split sep (h ++ t)) = h ++ hd [] (split sep t).
Proof.
  induction h as [|c h IH]; intros Hnot; simpl; [reflexivity|].
  destruct (char_eqb c sep) eqn:Hc.
  - apply N.eqb_eq in Hc. exfalso. apply Hnot. now left.
  - assert (Hh : ~ In sep h) by (intros H; apply Hnot; now right).
    specialize (IH Hh).
    pose proof (split_not_nil sep (h ++ t)) as Hnil.
    destruct (split sep (h ++ t)) as [|g gs]; [contradiction|].
    simpl in *. now rewrite IH.
Qed.

Lemma decruft_url_unique (url kept rest : ustring) :
  url = kept ++ rest ->
  ~ In question_mark kept -> ~ In hash_sign kept ->
  (rest = [] \/ exists c rest', rest = c :: rest'
                 /\ (c = question_mark \/ c = hash_sign)) ->
  decruft_url url = kept.
Proof.
  intros -> Hq Hh Hrest. unfold decruft_url.
  destruct Hrest as [-> | (c & rest' & -> & [-> | ->])].
  - rewrite app_nil_r, (split_no_sep_id question_mark kept Hq). simpl.
    now rewrite split_no_sep_id.
  - rewrite split_app_sep by exact Hq. simpl.
    now rewrite split_no_sep_id.
  - rewrite hd_split_app by exact Hq.
    apply hd_split_unique with (r := hd [] (split question_mark
                                                  (hash_sign :: rest')));
      [reflexivity | exact Hh |].
    right. simpl.
    pose proof (split_not_nil question_mark rest') as Hnil.
    destruct (split question_mark rest') as [|g gs]; [contradiction|].
    simpl. eauto.
Qed.

(** X7: [decruft_url] is exactly the cut at the first ['?'] or ['#']:
    whenever a url is some text free of both characters followed by
    nothing or by a rest that starts with one of them, [decruft_url]
    returns that text. *)
Theorem decruft_url_is_the_cut (url kept rest : ustring)
    (Hurl : url = kept ++ rest)
    (Hq : ~ In question_mark kept)
    (Hh : ~ In hash_sign kept)
    (Hrest : rest = []
             \/ exists c rest', rest = c :: rest'
                  /\ (c = question_mark \/ c = hash_sign)) :
  decruft_url url = kept.
Proof. exact (decruft_url_unique url kept rest Hurl Hq Hh Hrest). Qed.

Lemma decruft_url_is_the_cut_witness :
  decruft_url (u "http://ex.com/a#top?x=1") = u "http://ex.com/a".
Proof.
  apply (decruft_url_is_the_cut (u "http://ex.com/a#top?x=1")
           (u "http://ex.com/a") (u "#top?x=1")).
  - reflexivity.
  - vm_compute; intuition discriminate.
  - vm_compute; intuition discriminate.
  - right. exists hash_sign, (u "top?x=1"). split; [reflexivity | now right].
Defined.

(** X8: a query string or a fragment added to a link does not change
    its dedup key: [decruft_url] of a url followed by ['?'] or ['#'] and
    anything is [decruft_url] of the url. *)
Theorem decruft_url_ignores_added_cruft (url more : ustring) (c : char)
    (Hc : c = question_mark \/ c = hash_sign) :
  decruft_url (url ++ c :: more) = decruft_url url.
Proof.
  destruct (decruft_url_cut url) as (rest & Hurl & Hrest & Hq & Hh & _).
  apply decruft_url_unique with (rest := rest ++ c :: more);
    [| exact Hq | exact Hh |].
  - rewrite Hurl at 1. now rewrite <- app_assoc.
  - right. destruct Hrest as [-> | (c' & rest' & -> & Hc')].
    + exists c, more. split; [reflexivity | exact Hc].
    + exists c', (rest' ++ c :: more). split; [reflexivity | exact Hc'].
Qed.

Lemma decruft_url_ignores_added_cruft_witness :
  decruft_url (u "http://ex.com/a#top" ++ question_mark :: u "utm=1")
  = decruft_url (u "http://ex.com/a#top").
Proof.
  apply (decruft_url_ignores_added_cruft (u "http://ex.com/a#top")
           (u "utm=1") question_mark).
  left; reflexivity.
Defined.

(** ** Duplicates within a feed *)

Lemma existsb_eqb_In (v : ustring) (l : list ustring) :
  existsb (eqb v) l = true <-> In v l.
Proof.
  rewrite existsb_exists. split.
  - intros (w & Hin & Heq). apply eqb_eq in Heq. now subst.
  - intros Hin. exists v. split; [exact Hin | apply eqb_refl].
Qed.

Lemma dedupe_fold (l : list Article) :
  forall (d : list Article) (seen : list ustring),
    fst (fold_left
           (fun acc article =>
              let '(deduped, deduped_urls) := acc in
              if negb (existsb (eqb (url article)) deduped_urls)
              then (deduped ++ [article], url article :: deduped_urls)
              else acc)
           l (d, seen))
    = d ++ keep_first seen l.
Proof.
  induction l as [|x l IH]; intros d seen; simpl.
  - now rewrite app_nil_r.
  - destruct (existsb (eqb (url x)) seen); simpl; rewrite IH.
    + reflexivity.
    + now rewrite <- app_assoc.
Qed.

Lemma dedupe_keep_first (l : list Article) : dedupe l = keep_first [] l.
Proof. unfold dedupe. now rewrite dedupe_fold. Qed.

Lemma keep_first_first (l : list Article) :
  forall (seen : list ustring) (x : Article),
    In x (keep_first seen l) ->
    ~ In (url x) seen
    /\ exists l1 l2, l = l1 ++ x :: l2 /\ ~ In (url x) (map url l1).
Proof.
  induction l as [|y l IH]; intros seen x; simpl; [contradiction|].
  destruct (existsb (eqb (url y)) seen) eqn:Hy.
  - intros Hin. destruct (IH _ _ Hin) as (Hseen & l1 & l2 & -> & Hl1).
    split; [exact Hseen|].
    exists (y :: l1), l2. split; [reflexivity|].
    intros [Heq|H]; [|contradiction].
    apply Hseen. rewrite <- Heq. now apply existsb_eqb_In.
  - assert (Hny : ~ In (url y) seen).
    { intros H. apply existsb_eqb_In in H. congruence. }
    intros [<-|Hin].
    + split; [exact Hny|]. exists [], l. split; [reflexivity | intros []].
    + destruct (IH _ _ Hin) as (Hseen & l1 & l2 & -> & Hl1).
      split; [intros H; apply Hseen; now right|].
      exists (y :: l1), l2. split; [reflexivity|].
      intros [Heq|H]; [|contradiction].
      apply Hseen. now left.
Qed.

Lemma keep_first_NoDup (l : list Article) :
  forall seen, NoDup (map url (keep_first seen l)).
Proof.
  induction l as [|y l IH]; intros seen; simpl; [constructor|].
  destruct (existsb (eqb (url y)) seen); [apply IH|].
  simpl. constructor; [|apply IH].
  intros Hin. apply in_map_iff in Hin as (x & Hx & Hin).
  apply keep_first_first in Hin as [Hseen _].
  apply Hseen. rewrite Hx. now left.
Qed.

Lemma keep_first_covers (l : list Article) :
  forall seen v,
    In v (map url l) -> In v seen \/ In v (map url (keep_first seen l)).
Proof.
  induction l as [|y l IH]; intros seen v; simpl; [contradiction|].
  destruct (existsb (eqb (url y)) seen) eqn:Hy.
  - intros [<-|Hin]; [left; now apply existsb_eqb_In | now apply IH].
  - intros [<-|Hin]; [right; now left|].
    destruct (IH (url y :: seen) v Hin) as [[<-|H]|H].
    + right; now left.
    + now left.
    + right; now right.
Qed.

(** X9: the first loop of the feed body keeps exactly the first
    article of every url: the kept articles have pairwise different
    urls, every url of the feed is kept, and each kept article stands in
    the feed with no article of the same url before it. *)
Theorem dedupe_keeps_first_of_each_url (l : list Article) :
  NoDup (map url (dedupe l))
  /\ (forall v, In v (map url (dedupe l)) <-> In v (map url l))
  /\ (forall x, In x (dedupe l) ->
                exists l1 l2, l = l1 ++ x :: l2
                              /\ ~ In (url x) (map url l1)).
Proof.
  rewrite dedupe_keep_first. split; [apply keep_first_NoDup|]. split.
  - intros v. split.
    + intros Hin. apply in_map_iff in Hin as (x & <- & Hin).
      apply keep_first_first in Hin as (_ & l1 & l2 & -> & _).
      rewrite map_app. apply in_or_app. right. now left.
    + intros Hin. destruct (keep_first_covers l [] v Hin) as [[]|H].
      exact H.
  - intros x Hin. now apply keep_first_first in Hin as [_ H].
Qed.

Lemma keep_first_distinct (l : list Article) :
  forall seen,
    NoDup (map url l) -> (forall v, In v seen -> ~ In v (map url l)) ->
    keep_first seen l = l.
Proof.
  induction l as [|y l IH]; intros seen Hnd Hdis; simpl; [reflexivity|].
  simpl in Hnd. apply NoDup_cons_iff in Hnd as [Hy Hnd].
  destruct (existsb (eqb (url y)) seen) eqn:He.
  - apply existsb_eqb_In in He. exfalso. apply (Hdis _ He). now left.
  - f_equal. apply IH; [exact Hnd|].
    intros v [<-|Hv]; [exact Hy|].
    intros H. apply (Hdis v Hv). now right.
Qed.

(** X10: a feed whose articles all have different urls passes the
    first loop unchanged, in the same order. *)
Theorem dedupe_of_distinct_urls (l : list Article)
    (Hdistinct : NoDup (map url l)) :
  dedupe l = l.
Proof.
  rewrite dedupe_keep_first. apply keep_first_distinct; [exact Hdistinct|].
  intros v [].
Qed.

Lemma dedupe_of_distinct_urls_witness :
  dedupe [Sample.article (u "X") (u "http://ex.com/a");
          Sample.article (u "Y") (u "http://ex.com/fbi")]
  = [Sample.article (u "X") (u "http://ex.com/a");
     Sample.article (u "Y") (u "http://ex.com/fbi")].
Proof.
  apply dedupe_of_distinct_urls.
  repeat constructor; vm_compute; intuition discriminate.
Defined.

(** ** Dedup store, more *)

(** X11: running [setup_db] never changes a row; it creates the unique
    index exactly when the store has none and no url occurs twice; and
    running it again changes nothing (the failing migration is
    dropped). *)
Theorem setup_db_again_changes_nothing (file : option Db) :
  articles (setup_db file)
  = match file with None => [] | Some d => articles d end
  /\ idx_articles_url (setup_db file)
     = match file with
       | None => true
       | Some d => idx_articles_url d
                   || negb (has_duplicates (map ArticleRow.url (articles d)))
       end
  /\ setup_db (Some (setup_db file)) = setup_db file.
Proof.
  destruct file as [d|]; [|repeat split].
  unfold setup_db.
  destruct (idx_articles_url d) eqn:Hidx; simpl.
  - rewrite Hidx. repeat split.
  - destruct (has_duplicates (map ArticleRow.url (articles d))) eqn:Hdup; simpl.
    + rewrite Hidx, Hdup. repeat split.
    + repeat split.
Qed.

(** X12: on a store without the index in which some url occurs twice,
    [setup_db] cannot create the index (the error is printed and
    dropped), and after it the insert of any url, present or not,
    succeeds and adds a row. *)
Theorem insert_unguarded_after_failed_index
    (d : Db) (v_title v_outlet v_url : ustring) (v_tweeted : bool)
    (v_recorded_at : Z) (v_tweet_id : option ustring)
    (Hidx : idx_articles_url d = false)
    (Hdup : has_duplicates (map ArticleRow.url (articles d)) = true) :
  setup_db (Some d) = d
  /\ insert (setup_db (Some d)) v_title v_outlet v_url v_tweeted
            v_recorded_at v_tweet_id
     = inr (mkDb (articles d
                  ++ [ArticleRow.mk (next_id d) v_title v_outlet v_url v_tweeted
                             v_recorded_at v_tweet_id])
                 false).
Proof.
  assert (Hsame : setup_db (Some d) = d)
    by (unfold setup_db; now rewrite Hidx, Hdup).
  split; [exact Hsame|].
  rewrite Hsame. unfold insert. now rewrite Hidx.
Qed.

Lemma next_id_above (d : Db) (r : ArticleRow.t) :
  In r (articles d) -> (ArticleRow.id r < next_id d)%Z.
Proof.
  unfold next_id. induction (articles d) as [|x l IH];
    cbn [In map fold_right]; [contradiction|].
  intros [<-|Hin]; [lia|]. specialize (IH Hin). lia.
Qed.

Lemma select_by_url_snoc (d : Db) (r : ArticleRow.t) (b : bool) (v : ustring) :
  select_by_url (mkDb (articles d ++ [r]) b) v
  = select_by_url d v ++ (if eqb (ArticleRow.url r) v then [r] else []).
Proof. unfold select_by_url. simpl. now rewrite filter_app. Qed.

(** X13: a successful insert is found again: the store has the old
    rows followed by the new one, whose rowid was not in use; looking up
    the inserted url gives the rows found before followed by the new
    row, and looking up any other url gives what it gave before. *)
Theorem insert_then_select
    (d d' : Db) (v_title v_outlet v_url : ustring) (v_tweeted : bool)
    (v_recorded_at : Z) (v_tweet_id : option ustring)
    (Hins : insert d v_title v_outlet v_url v_tweeted v_recorded_at
                   v_tweet_id = inr d') :
  let row := ArticleRow.mk (next_id d) v_title v_outlet v_url v_tweeted
                    v_recorded_at v_tweet_id in
  articles d' = articles d ++ [row]
  /\ idx_articles_url d' = idx_articles_url d
  /\ ~ In (next_id d) (map ArticleRow.id (articles d))
  /\ select_by_url d' v_url = select_by_url d v_url ++ [row]
  /\ forall v, v <> v_url -> select_by_url d' v = select_by_url d v.
Proof.
  intros row. unfold insert in Hins.
  destruct (idx_articles_url d && _); [discriminate|].
  injection Hins as <-. fold row. repeat split.
  - intros Hin. apply in_map_iff in Hin as (r & Hid & Hin).
    apply next_id_above in Hin. lia.
  - rewrite select_by_url_snoc. simpl. now rewrite eqb_refl.
  - intros v Hv. rewrite select_by_url_snoc. simpl.
    replace (eqb v_url v) with false; [apply app_nil_r|].
    symmetry. now apply eqb_neq.
Qed.

Lemma insert_then_select_witness :
  select_by_url
    (mkDb [ArticleRow.mk 1 (u "X") (u "Outlet") (u "http://ex.com/a") false
                  1700000000 None] true)
    (u "http://ex.com/a")
  = select_by_url (setup_db None) (u "http://ex.com/a")
    ++ [ArticleRow.mk (next_id (setup_db None)) (u "X") (u "Outlet")
               (u "http://ex.com/a") false 1700000000 None].
Proof.
  pose proof (insert_then_select (setup_db None)
                (mkDb [ArticleRow.mk 1 (u "X") (u "Outlet") (u "http://ex.com/a")
                              false 1700000000 None] true)
                (u "X") (u "Outlet") (u "http://ex.com/a") false
                1700000000 None) as H.
  cbv zeta in H.
  destruct H as (_ & _ & _ & H & _); [reflexivity | exact H].
Defined.


Lemma fold_right_max_from (b : Z) (l : list Z) :
  (0 <= b)%Z ->
  fold_right Z.max b l = Z.max (fold_right Z.max 0%Z l) b.
Proof. intros Hb. induction l as [|x l IH]; simpl; lia. Qed.

Lemma max_of_first_ids (n : nat) :
  fold_right Z.max 0%Z (map Z.of_nat (seq 1 n)) = Z.of_nat n.
Proof.
  induction n as [|n IH]; [reflexivity|].
  rewrite seq_S, map_app, fold_right_app. simpl fold_right at 2.
  rewrite fold_right_max_from by lia. rewrite IH. lia.
Qed.

(** X15: every store the program builds (a new file, [setup_db] at
    each start, successful inserts) has the unique index, no url in two
    rows, and the rowids 1, 2, ..., n in the order of insertion. *)
Theorem reachable_store_invariant (d : Db) (Hstore : reachable d) :
  idx_articles_url d = true
  /\ NoDup (map ArticleRow.url (articles d))
  /\ map ArticleRow.id (articles d)
     = map Z.of_nat (seq 1 (List.length (articles d))).
Proof.
  destruct (reachable_unique d Hstore) as [Hidx Hnd].
  split; [exact Hidx|]. split; [exact Hnd|]. clear Hidx Hnd.
  induction Hstore as [| d Hd IH
                       | d d' vt vo vu vtw vr vid Hd IH Hins].
  - reflexivity.
  - destruct (reachable_unique d Hd) as [Hidx _].
    unfold setup_db. now rewrite Hidx.
  - unfold insert in Hins.
    destruct (idx_articles_url d && _); [discriminate|].
    injection Hins as <-. simpl.
    rewrite map_app, length_app. simpl.
    rewrite Nat.add_1_r, seq_S, map_app, <- IH. simpl. f_equal. f_equal.
    unfold next_id. rewrite IH, max_of_first_ids. lia.
Qed.

Lemma reachable_store_invariant_witness :
  idx_articles_url (db Sample.after_dull) = true
  /\ NoDup (map ArticleRow.url (articles (db Sample.after_dull)))
  /\ map ArticleRow.id (articles (db Sample.after_dull))
     = map Z.of_nat (seq 1 (List.length (articles (db Sample.after_dull)))).
Proof.
  apply reachable_store_invariant.
  eapply reachable_insert with (d := setup_db None);
    [apply reachable_new | vm_compute; reflexivity].
Defined.

(** ** Thread parents *)

(** X16: the window of the thread-parent query starts at midnight UTC
    two days before the current day: a row is in it exactly when it was
    recorded at or after that instant, which lies between two and three
    days back.  So rows up to two days old are always in, rows three
    days old or more never. *)
Theorem window_starts_at_midnight (now : Z) (r : ArticleRow.t) :
  since_two_days_ago now r = (window_start now <=? ArticleRow.recorded_at r)%Z
  /\ (now - 3 * seconds_per_day < window_start now)%Z
  /\ (window_start now <= now - 2 * seconds_per_day)%Z.
Proof.
  unfold since_two_days_ago, window_start, utc_date, seconds_per_day.
  split; [|split].
  - apply eq_true_iff_eq. rewrite !Z.leb_le.
    Z.div_mod_to_equations. lia.
  - Z.div_mod_to_equations. lia.
  - Z.div_mod_to_equations. lia.
Qed.

Lemma select_same_title_none (d : Db) (now : Z) (v : ustring) :
  Forall (not_a_parent now v) (articles d) ->
  select_same_title d now v = [].
Proof.
  unfold select_same_title. induction 1 as [|r l Hr _ IH]; simpl;
    [reflexivity|].
  replace (eqb (ArticleRow.title r) v && since_two_days_ago now r) with false;
    [exact IH|].
  symmetry. destruct Hr as [Hr | ->]; [|apply andb_false_r].
  apply eqb_neq in Hr. now rewrite Hr.
Qed.

(** X17: the reply target is the id of the most recently inserted row
    of the same title in the window, whatever older rows hold: when that
    row's [tweet_id] is a run of digits, the lookup returns its
    number. *)
Theorem thread_parent_is_most_recent_row
    (a : Article) (st : State) (before after : list ArticleRow.t) (row : ArticleRow.t)
    (tid : ustring) (n : Z)
    (Hrows : articles (db st) = before ++ row :: after)
    (Htitle : ArticleRow.title row = title a)
    (Hrecent : since_two_days_ago (clock st) row = true)
    (Hafter : Forall (not_a_parent (clock st) (title a)) after)
    (Htid : ArticleRow.tweet_id row = Some tid)
    (Hint : int (Some tid) = inr n) :
  thread_parent a st = (inr (Some n), st).
Proof.
  apply thread_parent_last
    with (older := select_same_title (mkDb before false) (clock st)
                                     (title a))
         (tid := tid); [|exact Hint].
  unfold select_same_title. rewrite Hrows, filter_app, map_app. simpl.
  rewrite Htitle, eqb_refl, Hrecent. simpl.
  pose proof (select_same_title_none (mkDb after false) _ _ Hafter) as Hnone.
  unfold select_same_title in Hnone. simpl in Hnone.
  now rewrite Hnone, Htid.
Qed.

Lemma thread_parent_is_most_recent_row_witness :
  thread_parent (Sample.article (u "Y") (u "http://ex.com/fbi2"))
    (mkState
       (mkDb [ArticleRow.mk 1 (u "Y") (u "Outlet") (u "http://ex.com/old") false
                     1699900000 None;
              ArticleRow.mk 2 (u "Y") (u "Outlet") (u "http://ex.com/fbi") true
                     1699990000 (Some (u "1001"));
              ArticleRow.mk 3 (u "Z") (u "Outlet") (u "http://ex.com/z") false
                     1699995000 None] true)
       1700000000 [])
  = (inr (Some 1001%Z),
     mkState
       (mkDb [ArticleRow.mk 1 (u "Y") (u "Outlet") (u "http://ex.com/old") false
                     1699900000 None;
              ArticleRow.mk 2 (u "Y") (u "Outlet") (u "http://ex.com/fbi") true
                     1699990000 (Some (u "1001"));
              ArticleRow.mk 3 (u "Z") (u "Outlet") (u "http://ex.com/z") false
                     1699995000 None] true)
       1700000000 []).
Proof.
  apply (thread_parent_is_most_recent_row
           (Sample.article (u "Y") (u "http://ex.com/fbi2")) _
           [ArticleRow.mk 1 (u "Y") (u "Outlet") (u "http://ex.com/old") false
                   1699900000 None]
           [ArticleRow.mk 3 (u "Z") (u "Outlet") (u "http://ex.com/z") false
                   1699995000 None]
           (ArticleRow.mk 2 (u "Y") (u "Outlet") (u "http://ex.com/fbi") true
                   1699990000 (Some (u "1001")))
           (u "1001") 1001%Z).
  - reflexivity.
  - reflexivity.
  - vm_compute; reflexivity.
  - constructor; [left; vm_compute; discriminate | constructor].
  - reflexivity.
  - vm_compute; reflexivity.
Defined.

(** X18: when every row has another title or lies before the window,
    the lookup returns no parent, so the notification is standalone. *)
Theorem thread_parent_none_without_recent_title
    (a : Article) (st : State)
    (Hrows : Forall (not_a_parent (clock st) (title a)) (articles (db st))) :
  thread_parent a st = (inr None, st).
Proof.
  apply thread_parent_none. now apply select_same_title_none.
Qed.

Lemma thread_parent_none_without_recent_title_witness :
  thread_parent (Sample.article (u "X") (u "http://ex.com/a"))
                (Sample.later Sample.after_dull (3 * 86400))
  = (inr None, Sample.later Sample.after_dull (3 * 86400)).
Proof.
  apply thread_parent_none_without_recent_title.
  constructor; [right; vm_compute; reflexivity | constructor].
Defined.

(** ** What a run can change *)

(** As [preserves_step], with the tactic that shows an emitted event
    allowed. *)
Ltac run_step Rrefl Rtrans Remit allowed :=
  lazymatch goal with
  | |- preserves _ (bind _ _) =>
      apply preserves_bind; [exact Rtrans | | intro]
  | |- preserves _ (try_except _ _ _) =>
      apply preserves_try_except; [exact Rtrans | | intro]
  | |- preserves _ (for_each _ _ _) =>
      apply preserves_for_each; [exact Rrefl | exact Rtrans | intros ? ?]
  | |- preserves _ (ret _) => apply preserves_ret; exact Rrefl
  | |- preserves _ (raise _) => apply preserves_raise; exact Rrefl
  | |- preserves _ (lift _) => apply preserves_lift; exact Rrefl
  | |- preserves _ get_db => apply preserves_get_db; exact Rrefl
  | |- preserves _ utcnow => apply preserves_utcnow; exact Rrefl
  | |- preserves _ (emit _) => apply Remit; allowed
  | |- preserves _ (if ?b then _ else _) => destruct b
  | |- preserves _ (match ?x with _ => _ end) => destruct x
  | |- preserves _ (let _ := _ in _) => cbv zeta
  end.

Lemma preserves_weaken {A : Type} (R R' : State -> State -> Prop)
    (m : M A) :
  (forall s s', R s s' -> R' s s') -> preserves R m -> preserves R' m.
Proof. intros H Hm st. apply H, Hm. Qed.

Section Runs.

Variable P : Event -> Prop.

Lemma calls_refl (st : State) : calls P st st.
Proof.
  repeat split. exists []. split; [now rewrite app_nil_r | constructor].
Qed.

Lemma calls_trans (a b c : State) :
  calls P a b -> calls P b c -> calls P a c.
Proof.
  intros (Hd1 & Hc1 & e1 & Hl1 & Hp1) (Hd2 & Hc2 & e2 & Hl2 & Hp2).
  split; [congruence|]. split; [congruence|].
  exists (e1 ++ e2). split.
  - now rewrite Hl2, Hl1, app_assoc.
  - apply Forall_app; auto.
Qed.

Lemma calls_emit (e : Event) : P e -> preserves (calls P) (emit e).
Proof.
  intros He st. repeat split. exists [e]. split; [reflexivity|].
  now constructor.
Qed.

Lemma grows_refl (st : State) : grows P st st.
Proof.
  split; [exists []; now rewrite app_nil_r|]. split; [reflexivity|].
  split; [lia|]. exists []. split; [now rewrite app_nil_r | constructor].
Qed.

Lemma grows_trans (a b c : State) :
  grows P a b -> grows P b c -> grows P a c.
Proof.
  intros ([r1 Hr1] & Hi1 & Hc1 & e1 & Hl1 & Hp1)
         ([r2 Hr2] & Hi2 & Hc2 & e2 & Hl2 & Hp2).
  split; [exists (r1 ++ r2); now rewrite Hr2, Hr1, app_assoc|].
  split; [congruence|]. split; [lia|].
  exists (e1 ++ e2). split.
  - now rewrite Hl2, Hl1, app_assoc.
  - apply Forall_app; auto.
Qed.

Lemma calls_grows (st st' : State) : calls P st st' -> grows P st st'.
Proof.
  intros (Hd & Hc & Hev).
  split; [exists []; now rewrite Hd, app_nil_r|].
  split; [now rewrite Hd|]. split; [lia | exact Hev].
Qed.

Lemma grows_record_article (a : Article) (tid : option ustring) :
  (forall msg, P (Print msg)) ->
  preserves (grows P) (record_article a tid).
Proof.
  intros HP st.
  unfold record_article, try_except, bind, get_db, utcnow, lift, put_db,
    sleep, emit.
  simpl.
  destruct (insert (db st) (title a) (outlet a) (url a) (tweeted a)
                   (clock st) tid) as [e|d'] eqn:Hins; simpl.
  - destruct e; simpl; try apply grows_refl.
    split; [exists []; now rewrite app_nil_r|]. split; [reflexivity|].
    split; [simpl; lia|]. eexists [_]. split; [reflexivity|].
    constructor; [apply HP | constructor].
  - unfold insert in Hins.
    destruct (idx_articles_url (db st) && _); [discriminate|].
    injection Hins as <-.
    unfold grows. cbn [snd db clock log articles idx_articles_url].
    split; [eexists; reflexivity|]. split; [reflexivity|].
    split; [lia|]. exists []. split; [now rewrite app_nil_r | constructor].
Qed.

Variable cfg : Config.
Variable env : Env.
Hypothesis HP : admits cfg P.

Ltac allowed := solve [ apply HP | auto ].
Ltac calls := run_step calls_refl calls_trans calls_emit allowed.

Lemma calls_canonicalize_url (a : Article) :
  preserves (calls P) (canonicalize_url env a).
Proof. unfold canonicalize_url. repeat calls. Qed.

Lemma calls_parse_feed (outlet : ustring) (entries : list Entry)
    (delicate redirects : bool) :
  preserves (calls P) (parse_feed env outlet entries delicate redirects).
Proof.
  unfold parse_feed, Article_init. repeat calls.
  apply calls_canonicalize_url.
Qed.

Lemma calls_check_for_matches (a : Article) :
  preserves (calls P) (check_for_matches cfg env a).
Proof. unfold check_for_matches, clean. repeat calls. Qed.

Lemma calls_thread_parent (a : Article) :
  preserves (calls P) (thread_parent a).
Proof. unfold thread_parent. repeat calls. Qed.

Lemma calls_tweet (a : Article) (parent : option Z) :
  preserves (calls P) (tweet cfg env a parent).
Proof.
  unfold tweet.
  destruct (TEST_MODE cfg) eqn:Hmode; repeat calls.
  apply calls_emit. now apply HP.
Qed.

Lemma grows_process_article (total counter : nat) (a : Article) :
  preserves (grows P) (process_article cfg env total counter a).
Proof.
  unfold process_article.
  repeat first
    [ apply grows_record_article; apply HP
    | apply (preserves_weaken (calls P) (grows P) _ calls_grows);
      first [ apply calls_tweet
            | apply calls_thread_parent
            | apply calls_check_for_matches
            | apply calls_emit; apply HP
            | apply preserves_ret; exact calls_refl
            | apply preserves_get_db; exact calls_refl ]
    | run_step grows_refl grows_trans calls_emit allowed ].
Qed.

Lemma grows_process_articles (deduped : list Article) :
  forall total counter,
    preserves (grows P) (process_articles cfg env total counter deduped).
Proof.
  induction deduped as [|x rest IH]; intros total counter; simpl.
  - apply preserves_ret. exact grows_refl.
  - apply preserves_bind; [exact grows_trans | | intros _; apply IH].
    apply grows_process_article.
Qed.

Lemma grows_process_feed (outlet : ustring) (entries : list Entry)
    (delicate redirects : bool) :
  preserves (grows P)
            (process_feed cfg env outlet entries delicate redirects).
Proof.
  unfold process_feed.
  apply preserves_bind; [exact grows_trans | | intros articles; cbv zeta].
  - apply (preserves_weaken (calls P) (grows P) _ calls_grows).
    apply calls_parse_feed.
  - apply grows_process_articles.
Qed.

End Runs.

(** X19: whatever the feed, the sites and the lists are, and whether it
    ends normally or raises, the feed body never removes, changes or
    reorders a row of the store: rows are only added at the end, the
    index stays as it is, the clock does not go back and the log is only
    extended. *)
Theorem feed_body_only_appends
    (cfg : Config) (env : Env) (outlet : ustring) (entries : list Entry)
    (delicate redirects : bool) (st : State) :
  grows any_event st
        (snd (process_feed cfg env outlet entries delicate redirects st)).
Proof.
  apply grows_process_feed. unfold admits, any_event. repeat split.
Qed.

(** X20: in test mode the feed body posts nothing: no call of
    [update_status] is made, for any feed and any outcome. *)
Theorem test_mode_posts_nothing
    (cfg : Config) (env : Env) (outlet : ustring) (entries : list Entry)
    (delicate redirects : bool) (st : State)
    (Hmode : TEST_MODE cfg = true) :
  exists evs,
    log (snd (process_feed cfg env outlet entries delicate redirects st))
    = log st ++ evs
    /\ Forall not_post evs.
Proof.
  assert (HP : admits cfg not_post).
  { unfold admits, not_post. repeat split; try discriminate.
    congruence. }
  destruct (grows_process_feed not_post cfg env HP outlet entries delicate
                               redirects st) as (_ & _ & _ & H).
  exact H.
Qed.

Lemma test_mode_posts_nothing_witness :
  exists evs,
    log (snd (process_feed
                (mkConfig true (u "ttn-sample/1.0") [u "x"] [] None false
                          (fun _ => false))
                (Sample.world Sample.direct) (u "Outlet")
                [mkEntry (u "X") (u "http://ex.com/a?utm=1")] false false
                Sample.start))
    = log Sample.start ++ evs
    /\ Forall not_post evs.
Proof.
  apply (test_mode_posts_nothing
           (mkConfig true (u "ttn-sample/1.0") [u "x"] [] None false
                     (fun _ => false))).
  reflexivity.
Defined.

(** ** Posting *)

Lemma uploaded_cons (env : Env) (img : Img) (l : list Img) :
  uploaded env (img :: l)
  = match upload_media env img with
    | inr media_id => [media_id]
    | inl _ => []
    end ++ uploaded env l.
Proof. reflexivity. Qed.

Lemma uploaded_length (env : Env) (l : list Img) :
  List.length (uploaded env l) <= List.length l.
Proof.
  induction l as [|img l IH]; [apply le_n|].
  rewrite uploaded_cons, length_app. simpl.
  destruct (upload_media env img); simpl; lia.
Qed.

Lemma upload_loop (env : Env) (l : list Img) :
  (forall img e, upload_media env img = inl e -> e = TwythonError) ->
  forall (acc : list Z) (st : State),
    for_each l
      (fun media_ids img =>
         try_except
           (emit (UploadMedia img) ;;
            res <- lift (upload_media env img) ;;
            ret (media_ids ++ [res]))
           (Exn_eqb TwythonError)
           (fun _ => ret media_ids))
      acc st
    = (inr (acc ++ uploaded env l), logged st (map UploadMedia l)).
Proof.
  intros Hup. induction l as [|img l IH]; intros acc st.
  - simpl. now rewrite app_nil_r, logged_nil.
  - rewrite uploaded_cons. simpl for_each.
    unfold bind at 1, try_except, bind, emit, lift, ret.
    destruct (upload_media env img) as [e|media_id] eqn:Himg.
    + rewrite (Hup _ _ Himg). cbn [Exn_eqb app].
      rewrite IH. f_equal. unfold logged. simpl. now rewrite <- app_assoc.
    + rewrite IH. f_equal; [now rewrite <- app_assoc|].
      unfold logged. simpl. now rewrite <- app_assoc.
Qed.

Lemma images_of_short (a : Article) :
  firstn 4 (images_of a) = images_of a.
Proof.
  apply firstn_all2. unfold images_of. rewrite length_map.
  apply firstn_le_length.
Qed.

(** The first half of [tweet]: rendering and uploading. *)
Lemma tweet_run (cfg : Config) (env : Env) (a : Article)
    (parent : option Z) (st : State) :
  imgs a = [] ->
  (forall img e, upload_media env img = inl e -> e = TwythonError) ->
  tweet cfg env a parent st
  = (if TEST_MODE cfg then
       emit (Print WouldTweet) ;;
       ret (set_imgs a (images_of a), u "1337")
     else
       emit (UpdateStatus (status_of a) (uploaded env (images_of a))
                          parent) ;;
       response <- lift (update_status env (status_of a)
                                       (uploaded env (images_of a))
                                       parent) ;;
       emit (Print (Status (status_of a))) ;;
       ret (set_tweeted (set_imgs a (images_of a)) true, response))
      (logged st (map Render (images_of a)
                  ++ map UploadMedia (images_of a))).
Proof.
  intros Himgs Hup. unfold tweet.
  replace (if Nat.eqb (List.length (matching_grafs a)) 1
           then false else true)
    with (negb (Nat.eqb (List.length (matching_grafs a)) 1))
    by now destruct (Nat.eqb _ 1).
  erewrite bind_ok by apply render_loop.
  replace (map (fun g => Render
                  (render_img g
                     (negb (Nat.eqb (List.length (matching_grafs a)) 1))))
               (firstn 4 (matching_grafs a)))
    with (map Render (images_of a))
    by (unfold images_of; now rewrite map_map).
  rewrite Himgs, app_nil_l.
  fold (images_of a).
  change (imgs (set_imgs a (images_of a))) with (images_of a).
  rewrite images_of_short.
  erewrite bind_ok by (apply upload_loop; exact Hup).
  now rewrite app_nil_l, logged_logged.
Qed.

(** X21: outside test mode, an upload that fails with [TwythonError] is
    skipped and the status is still posted: [tweet] renders the first
    four paragraphs, uploads each image, posts the text
    [outlet: title url] (no prefix when the outlet is empty) with the
    ids of the uploads that succeeded, in order, and returns the new id
    with the article marked as tweeted. *)
Theorem tweet_posts_with_uploaded_media
    (cfg : Config) (env : Env) (a : Article) (parent : option Z)
    (st : State) (id_str : ustring)
    (Himgs : imgs a = [])
    (Hmode : TEST_MODE cfg = false)
    (Hup : forall img e, upload_media env img = inl e -> e = TwythonError)
    (Hpost : update_status env (status_of a) (uploaded env (images_of a))
                           parent = inr id_str) :
  tweet cfg env a parent st
  = (inr (set_tweeted (set_imgs a (images_of a)) true, id_str),
     logged st (map Render (images_of a)
                ++ map UploadMedia (images_of a)
                ++ [UpdateStatus (status_of a)
                                 (uploaded env (images_of a)) parent;
                    Print (Status (status_of a))]))
  /\ List.length (uploaded env (images_of a)) <= 4.
Proof.
  split.
  - rewrite tweet_run by assumption. rewrite Hmode.
    unfold bind, emit, lift, ret, logged. rewrite Hpost. simpl.
    now rewrite <- !app_assoc.
  - apply Nat.le_trans with (1 := uploaded_length env (images_of a)).
    unfold images_of. rewrite length_map. apply firstn_le_length.
Qed.

Lemma tweet_posts_with_uploaded_media_witness :
  tweet Sample.config More.world More.matched None Sample.start
  = (inr (set_tweeted (set_imgs More.matched (images_of More.matched)) true,
          u "1001"),
     logged Sample.start
       (map Render (images_of More.matched)
        ++ map UploadMedia (images_of More.matched)
        ++ [UpdateStatus (u "Outlet: T http://ex.com/t") [7%Z; 11%Z] None;
            Print (Status (u "Outlet: T http://ex.com/t"))]))
  /\ List.length (uploaded More.world (images_of More.matched)) <= 4.
Proof.
  apply (tweet_posts_with_uploaded_media Sample.config More.world
           More.matched None Sample.start (u "1001")).
  - reflexivity.
  - reflexivity.
  - intros [graf square] e. unfold More.world, More.flaky_upload. simpl.
    destruct (eqb graf (u "second x")); congruence.
  - reflexivity.
Defined.

(** X22: in test mode [tweet] still renders and uploads the images,
    then prints and returns the fixed id 1337 without posting; the
    article is not marked as tweeted. *)
Theorem tweet_in_test_mode
    (cfg : Config) (env : Env) (a : Article) (parent : option Z)
    (st : State)
    (Himgs : imgs a = [])
    (Hmode : TEST_MODE cfg = true)
    (Hup : forall img e, upload_media env img = inl e -> e = TwythonError) :
  tweet cfg env a parent st
  = (inr (set_imgs a (images_of a), u "1337"),
     logged st (map Render (images_of a)
                ++ map UploadMedia (images_of a)
                ++ [Print WouldTweet]))
  /\ tweeted (set_imgs a (images_of a)) = tweeted a.
Proof.
  split; [|reflexivity].
  rewrite tweet_run by assumption. rewrite Hmode.
  unfold bind, emit, ret, logged. simpl.
  now rewrite <- !app_assoc.
Qed.

Lemma tweet_in_test_mode_witness :
  tweet More.test_config More.world More.matched None Sample.start
  = (inr (set_imgs More.matched (images_of More.matched), u "1337"),
     logged Sample.start
       (map Render (images_of More.matched)
        ++ map UploadMedia (images_of More.matched)
        ++ [Print WouldTweet]))
  /\ tweeted (set_imgs More.matched (images_of More.matched))
     = tweeted More.matched.
Proof.
  apply (tweet_in_test_mode More.test_config More.world More.matched None
           Sample.start).
  - reflexivity.
  - reflexivity.
  - intros [graf square] e. unfold More.world, More.flaky_upload. simpl.
    destruct (eqb graf (u "second x")); congruence.
Defined.

(** ** The loop body, case by case *)

Lemma bind_inv {A B : Type} (m : M A) (k : A -> M B) (st st2 : State)
    (y : B) :
  bind m k st = (inr y, st2) ->
  exists x st1, m st = (inr x, st1) /\ k x st1 = (inr y, st2).
Proof.
  unfold bind. destruct (m st) as [[e|x] st1]; [discriminate|]. eauto.
Qed.





Lemma checked_article_url (cfg : Config) (env : Env) (a a1 : Article)
    (st st1 : State) :
  try_except (check_for_matches cfg env a) (fun _ => true)
             (fun _ => emit (Print HavingTrouble) ;; ret a) st
  = (inr a1, st1) ->
  url a1 = url a.
Proof.
  unfold try_except. rewrite check_for_matches_run.
  destruct (fetch_plaintext env (url a)) as [e|text].
  - unfold bind, emit, ret. simpl. intros H. now injection H as <- _.
  - destruct (suppressed cfg env a text); intros H; now injection H as <- _.
Qed.

Lemma tweet_url (cfg : Config) (env : Env) (a : Article)
    (parent : option Z) (st st1 : State) (r : Article * ustring) :
  tweet cfg env a parent st = (inr r, st1) -> url (fst r) = url a.
Proof.
  unfold tweet. erewrite bind_ok by apply render_loop.
  intros H. apply bind_inv in H as (ids & s1 & _ & H). cbv zeta in H.
  destruct (TEST_MODE cfg).
  - unfold bind, emit, ret in H. simpl in H. now injection H as <- _.
  - unfold bind, emit, lift, ret in H. simpl in H.
    destruct (update_status env _ ids parent); [discriminate|].
    now injection H as <- _.
Qed.

Lemma existsb_select_by_url (d : Db) (v : ustring) :
  existsb (fun r => eqb (ArticleRow.url r) v) (articles d) = true ->
  select_by_url d v <> [].
Proof.
  intros H. apply existsb_exists in H as (r & Hin & Heq). intros Hnil.
  assert (Hr : In r (select_by_url d v)) by (apply filter_In; auto).
  now rewrite Hnil in Hr.
Qed.

Lemma record_article_seen (a : Article) (tid : option ustring)
    (st st1 : State) :
  record_article a tid st = (inr tt, st1) ->
  select_by_url (db st1) (url a) <> [].
Proof.
  unfold record_article, try_except, bind, get_db, utcnow, lift, put_db,
    sleep, emit, insert.
  simpl.
  destruct (idx_articles_url (db st)) eqn:Hidx; simpl.
  - destruct (existsb _ (articles (db st))) eqn:Hex; simpl;
      intros H; injection H as <-; simpl.
    + now apply existsb_select_by_url.
    + rewrite select_by_url_snoc. simpl. rewrite eqb_refl.
      intros Hnil. now apply app_eq_nil in Hnil as [_ Hnil].
  - intros H; injection H as <-; simpl.
    rewrite select_by_url_snoc. simpl. rewrite eqb_refl.
    intros Hnil. now apply app_eq_nil in Hnil as [_ Hnil].
Qed.

Lemma process_article_done_seen (cfg : Config) (env : Env)
    (total counter : nat) (a : Article) (st st1 : State) :
  process_article cfg env total counter a st = (inr tt, st1) ->
  select_by_url (db st1) (url a) <> [].
Proof.
  destruct (select_by_url (db st) (url a)) as [|row rows] eqn:Hs.
  - unfold process_article. intros H.
    apply bind_inv in H as (d & s0 & Hget & H).
    unfold get_db in Hget. injection Hget as <- <-.
    rewrite Hs in H. simpl in H.
    apply bind_inv in H as (_ & s1 & _ & H).
    apply bind_inv in H as (a1 & s2 & Hcheck & H).
    apply checked_article_url in Hcheck.
    apply bind_inv in H as (r & s3 & Hr & H).
    apply record_article_seen in H.
    assert (Hurl : url (fst r) = url a1).
    { destruct (matching_grafs a1).
      - unfold ret in Hr. now injection Hr as <- _.
      - apply bind_inv in Hr as (_ & s4 & _ & Hr).
        apply bind_inv in Hr as (parent & s5 & _ & Hr).
        apply bind_inv in Hr as (r0 & s6 & Htweet & Hr).
        apply tweet_url in Htweet.
        unfold ret in Hr. now injection Hr as <- _. }
    now rewrite Hurl, Hcheck in H.
  - intros H. rewrite process_article_seen in H by (rewrite Hs; discriminate).
    injection H as <-. rewrite Hs. discriminate.
Qed.

Lemma finished_pass_all_seen (cfg : Config) (env : Env)
    (deduped : list Article) :
  forall total counter st st1,
    process_articles cfg env total counter deduped st = (inr tt, st1) ->
    Forall (fun a => select_by_url (db st1) (url a) <> []) deduped.
Proof.
  assert (HP : admits cfg any_event) by (unfold admits, any_event; tauto).
  induction deduped as [|x rest IH]; intros total counter st st1 H;
    [constructor|].
  simpl in H. apply bind_inv in H as ([] & s1 & Hx & Hrest).
  constructor; [|eapply IH; exact Hrest].
  apply process_article_done_seen in Hx.
  pose proof (grows_process_articles any_event cfg env HP rest total
                                     (S counter) s1) as Hg.
  rewrite Hrest in Hg. destruct Hg as (Hrows & _).
  eapply keeps_rows_seen; [exact Hrows | exact Hx].
Qed.

Lemma all_seen_pass_is_noop (cfg : Config) (env : Env)
    (deduped : list Article) (st : State) :
  Forall (fun a => select_by_url (db st) (url a) <> []) deduped ->
  forall total counter,
    process_articles cfg env total counter deduped st = (inr tt, st).
Proof.
  induction 1 as [|x rest Hx _ IH]; intros total counter; simpl;
    [reflexivity|].
  erewrite bind_ok by (apply process_article_seen; exact Hx).
  apply IH.
Qed.

(** X24: once a pass over a list of articles has ended normally, every
    article of the list has a row, and any later pass over the same
    articles does nothing at all (no fetch, no post, no row, no sleep),
    whatever the sites, the word lists and the time then are. *)
Theorem finished_pass_is_not_repeated
    (cfg cfg' : Config) (env env' : Env)
    (total counter total' counter' : nat) (deduped : list Article)
    (st st1 st2 : State)
    (Hpass : process_articles cfg env total counter deduped st
             = (inr tt, st1))
    (Hstore : db st2 = db st1) :
  Forall (fun a => select_by_url (db st1) (url a) <> []) deduped
  /\ process_articles cfg' env' total' counter' deduped st2 = (inr tt, st2).
Proof.
  pose proof (finished_pass_all_seen cfg env deduped _ _ _ _ Hpass) as Hseen.
  split; [exact Hseen|].
  apply all_seen_pass_is_noop. now rewrite Hstore.
Qed.

Lemma finished_pass_is_not_repeated_witness :
  process_articles More.test_config More.world 1 1
    [Sample.article (u "X") (u "http://ex.com/dull")]
    (Sample.later Sample.after_dull 86400)
  = (inr tt, Sample.later Sample.after_dull 86400).
Proof.
  apply (finished_pass_is_not_repeated Sample.config More.test_config
           (Sample.world Sample.direct) More.world 1 1 1 1
           [Sample.article (u "X") (u "http://ex.com/dull")]
           Sample.start Sample.after_dull
           (Sample.later Sample.after_dull 86400)).
  - vm_compute; reflexivity.
  - reflexivity.
Defined.

(** X25: an unseen article whose text is suppressed or holds no
    matching paragraph is recorded all the same: one row with its
    title, outlet and url, the current time, [tweeted] as it was (false
    for a new article) and a null [tweet_id]; nothing is rendered,
    uploaded or posted, and the body sleeps one second. *)
Theorem unmatched_article_is_recorded
    (cfg : Config) (env : Env) (total counter : nat) (a : Article)
    (st : State) (text : ustring)
    (Hnew : select_by_url (db st) (url a) = [])
    (Hfresh : matching_grafs a = [])
    (Hfetch : fetch_plaintext env (url a) = inr text)
    (Hnone : suppressed cfg env a text = true
             \/ filter (graf_matches cfg env) (split newline text) = []) :
  process_article cfg env total counter a st
  = (inr tt,
     mkState
       (mkDb (articles (db st)
              ++ [ArticleRow.mk (next_id (db st)) (title a) (outlet a) (url a)
                         (tweeted a) (clock st) None])
             (idx_articles_url (db st)))
       (clock st + 1)
       (log st ++ [Print (Checking (outlet a) counter total);
                   HttpGet (url a)])).
Proof.
  assert (Hex : existsb (fun r => eqb (ArticleRow.url r) (url a))
                        (articles (db st)) = false).
  { destruct (existsb _ (articles (db st))) eqn:Hex; [|reflexivity].
    apply existsb_select_by_url in Hex. congruence. }
  unfold process_article, bind at 1, get_db. rewrite Hnew. simpl.
  unfold bind at 1, emit at 1. unfold bind at 1, try_except.
  rewrite check_for_matches_run, Hfetch.
  assert (Hgrafs :
            matching_grafs
              (if suppressed cfg env a text
               then set_plaintext a text
               else set_matching_grafs
                      (set_plaintext a text)
                      (matching_grafs a
                       ++ filter (graf_matches cfg env)
                                 (split newline text))) = []).
  { destruct Hnone as [-> | Hnone]; [exact Hfresh|].
    destruct (suppressed cfg env a text); [exact Hfresh|].
    simpl. now rewrite Hfresh, Hnone. }
  unfold bind at 1. rewrite Hgrafs.
  unfold ret at 1. cbn [fst snd].
  unfold record_article, try_except, bind, get_db, utcnow, lift, put_db,
    sleep, emit, logged, insert.
  cbn [db clock log fst snd].
  assert (Hsame : forall b : bool,
            title (if b then set_plaintext a text
                   else set_matching_grafs (set_plaintext a text)
                          (matching_grafs a
                           ++ filter (graf_matches cfg env)
                                     (split newline text))) = title a
            /\ outlet (if b then set_plaintext a text
                       else set_matching_grafs (set_plaintext a text)
                              (matching_grafs a
                               ++ filter (graf_matches cfg env)
                                         (split newline text))) = outlet a
            /\ url (if b then set_plaintext a text
                    else set_matching_grafs (set_plaintext a text)
                           (matching_grafs a
                            ++ filter (graf_matches cfg env)
                                      (split newline text))) = url a
            /\ tweeted (if b then set_plaintext a text
                        else set_matching_grafs (set_plaintext a text)
                               (matching_grafs a
                                ++ filter (graf_matches cfg env)
                                          (split newline text)))
               = tweeted a)
    by (intros []; repeat split).
  destruct (Hsame (suppressed cfg env a text)) as (-> & -> & -> & ->).
  rewrite Hex, andb_false_r. cbn [db clock log fst snd].
  now rewrite <- !app_assoc.
Qed.

Lemma unmatched_article_is_recorded_witness :
  process_article Sample.config (Sample.world Sample.direct) 1 1
    (Sample.article (u "X") (u "http://ex.com/dull")) Sample.start
  = (inr tt,
     mkState
       (mkDb [ArticleRow.mk 1 (u "X") (u "Outlet") (u "http://ex.com/dull") false
                     1700000000 None] true)
       1700000001
       [Print (Checking (u "Outlet") 1 1);
        HttpGet (u "http://ex.com/dull")]).
Proof.
  apply (unmatched_article_is_recorded Sample.config
           (Sample.world Sample.direct) 1 1
           (Sample.article (u "X") (u "http://ex.com/dull")) Sample.start
           (u "nothing to see")).
  - reflexivity.
  - reflexivity.
  - vm_compute; reflexivity.
  - right. vm_compute; reflexivity.
Defined.

(** ** Reading a feed *)



Lemma calls_is_head_refl (st : State) : calls is_head st st.
Proof. apply calls_refl. Qed.

Lemma parse_feed_only_heads (env : Env) (outlet : ustring)
    (entries : list Entry) (delicate redirects : bool) :
  preserves (calls is_head)
            (parse_feed env outlet entries delicate redirects).
Proof.
  unfold parse_feed, Article_init, canonicalize_url.
  repeat run_step (calls_refl is_head) (calls_trans is_head)
                  (calls_emit is_head)
                  ltac:(eexists; reflexivity).
Qed.

Lemma parse_feed_loop_raises (env : Env) (outlet : ustring)
    (delicate : bool) (entry : Entry) (exn : Exn) (entries : list Entry) :
  In entry entries ->
  requests_head env (entry_link entry) = inl exn ->
  forall (acc : list Article) (st : State),
    exists e,
      fst (for_each entries
             (fun articles entry =>
                article <- Article_init env outlet (entry_title entry)
                             (entry_link entry) delicate true ;;
                ret (articles ++ [article]))
             acc st) = inl e.
Proof.
  intros Hin Hhead.
  induction entries as [|x l IH]; intros acc st; [contradiction|].
  simpl. unfold bind at 1.
  destruct ((article <- Article_init env outlet (entry_title x)
                          (entry_link x) delicate true ;;
             ret (acc ++ [article])) st) as [[e|acc'] st1] eqn:Hx.
  - exists e. reflexivity.
  - destruct Hin as [-> | Hin]; [|now apply IH].
    exfalso. revert Hx.
    unfold Article_init, canonicalize_url, bind, emit, lift, ret. simpl.
    rewrite Hhead. discriminate.
Qed.

(** X27: for a feed with redirect links, one entry whose redirect
    cannot be resolved makes the whole feed body raise while the feed is
    still being parsed: only HEAD requests have been made, no article of
    the feed has been fetched, posted or recorded, and the clock is as it
    was. *)
Theorem failed_redirect_aborts_feed
    (cfg : Config) (env : Env) (outlet : ustring) (entries : list Entry)
    (delicate : bool) (st : State) (entry : Entry) (exn : Exn)
    (Hin : In entry entries)
    (Hhead : requests_head env (entry_link entry) = inl exn) :
  exists e,
    fst (process_feed cfg env outlet entries delicate true st) = inl e
    /\ calls is_head st
             (snd (process_feed cfg env outlet entries delicate true st)).
Proof.
  destruct (parse_feed_loop_raises env outlet delicate entry exn entries
              Hin Hhead [] st) as [e He].
  pose proof (parse_feed_only_heads env outlet entries delicate true st)
    as Hcalls.
  unfold process_feed, bind. unfold parse_feed in *.
  destruct (for_each entries _ [] st) as [[e'|articles] st1];
    [|discriminate He].
  exists e'. split; [reflexivity | exact Hcalls].
Qed.

Lemma failed_redirect_aborts_feed_witness :
  exists e,
    fst (process_feed Sample.config
           (mkEnv ascii_tolower (fun _ => inl RequestException)
                  Sample.pages (fun _ => inr 7%Z)
                  (fun _ _ _ => inr (u "1001")))
           (u "Outlet") [mkEntry (u "X") (u "http://feeds.ex.com/r/1")]
           false true Sample.start) = inl e
    /\ calls is_head Sample.start
         (snd (process_feed Sample.config
                 (mkEnv ascii_tolower (fun _ => inl RequestException)
                        Sample.pages (fun _ => inr 7%Z)
                        (fun _ _ _ => inr (u "1001")))
                 (u "Outlet") [mkEntry (u "X") (u "http://feeds.ex.com/r/1")]
                 false true Sample.start)).
Proof.
  apply (failed_redirect_aborts_feed Sample.config _ (u "Outlet")
           [mkEntry (u "X") (u "http://feeds.ex.com/r/1")] false
           Sample.start (mkEntry (u "X") (u "http://feeds.ex.com/r/1"))
           RequestException).
  - left; reflexivity.
  - reflexivity.
Defined.

Lemma canonicalize_url_result (env : Env) (a a1 : Article)
    (st st1 : State) :
  canonicalize_url env a st = (inr a1, st1) ->
  a1 = set_url a (url a1)
  /\ (delicate a = false ->
      ~ In question_mark (url a1) /\ ~ In hash_sign (url a1)).
Proof.
  unfold canonicalize_url, bind, emit, lift, ret.
  destruct (decruft_url_cut (url a)) as (_ & _ & _ & Hq0 & Hh0 & _).
  destruct (redirects a); simpl.
  - destruct (requests_head env (url a)) as [e|res]; [discriminate|].
    rewrite delicate_set_url.
    destruct (decruft_url_cut (final_location res))
      as (_ & _ & _ & Hq & Hh & _).
    destruct (delicate a); simpl; intros H; injection H as <- _;
      rewrite ?url_set_url, ?set_url_set_url;
      (split; [reflexivity|]); intros Hd; [discriminate | auto].
  - destruct (delicate a); simpl; intros H; injection H as <- _;
      rewrite ?url_set_url, ?set_url_same;
      (split; [reflexivity|]); intros Hd; [discriminate | auto].
Qed.

Lemma parse_feed_loop_result (env : Env) (outlet : ustring)
    (delicate redirects : bool) (Q : Article -> Prop) (entries : list Entry) :
  (forall entry a st st1,
      Article_init env outlet (entry_title entry) (entry_link entry)
                   delicate redirects st = (inr a, st1) ->
      title a = entry_title entry /\ Q a) ->
  forall (acc articles : list Article) (st st1 : State),
    for_each entries
      (fun articles entry =>
         article <- Article_init env outlet (entry_title entry)
                      (entry_link entry) delicate redirects ;;
         ret (articles ++ [article]))
      acc st = (inr articles, st1) ->
    exists new, articles = acc ++ new
                /\ map title new = map entry_title entries
                /\ Forall Q new.
Proof.
  intros Hinit. induction entries as [|x l IH];
    intros acc articles st st1; simpl.
  - unfold ret. intros H. injection H as <- _.
    exists []. now rewrite app_nil_r.
  - intros H. apply bind_inv in H as (acc' & s1 & Hx & H).
    apply bind_inv in Hx as (a & s0 & Ha & Hx).
    unfold ret in Hx. injection Hx as <- <-.
    destruct (Hinit _ _ _ _ Ha) as [Ht Hq].
    destruct (IH _ _ _ _ H) as (new & -> & Hmap & Hall).
    exists (a :: new). rewrite <- app_assoc. simpl.
    split; [reflexivity|]. split; [now rewrite Ht, Hmap | now constructor].
Qed.

(** X28: when [parse_feed] returns, it returns one article per entry,
    in order and with the entry's title; every article carries the
    feed's outlet and flags, has no matching paragraph, no image and is
    not tweeted; and unless the feed has delicate urls, no returned url
    holds a ['?'] or a ['#'], redirect links or not. *)
Theorem parse_feed_returns_clean_articles
    (env : Env) (outlet : ustring) (entries : list Entry)
    (delicate redirects : bool) (articles : list Article)
    (st st1 : State)
    (Hrun : parse_feed env outlet entries delicate redirects st
            = (inr articles, st1)) :
  map title articles = map entry_title entries
  /\ Forall (fun a =>
               a = mkArticle outlet (title a) (url a) delicate redirects
                             [] [] false None
               /\ (delicate = false ->
                   ~ In question_mark (url a) /\ ~ In hash_sign (url a)))
            articles.
Proof.
  unfold parse_feed in Hrun.
  set (Q := fun a =>
              a = mkArticle outlet (title a) (url a) delicate redirects
                            [] [] false None
              /\ (delicate = false ->
                  ~ In question_mark (url a) /\ ~ In hash_sign (url a))).
  assert (Hinit : forall entry a s s1,
             Article_init env outlet (entry_title entry) (entry_link entry)
                          delicate redirects s = (inr a, s1) ->
             title a = entry_title entry /\ Q a).
  { intros entry a s s1 Ha. unfold Article_init in Ha.
    apply canonicalize_url_result in Ha as [Ha Hclean]. simpl in Hclean.
    assert (Ht : title a = entry_title entry) by (now rewrite Ha).
    split; [exact Ht|]. unfold Q. split; [|exact Hclean].
    rewrite Ht. rewrite Ha at 1. reflexivity. }
  destruct (parse_feed_loop_result env outlet delicate redirects Q entries
              Hinit [] articles st st1 Hrun) as (new & -> & Hmap & Hall).
  simpl. auto.
Qed.

Lemma parse_feed_returns_clean_articles_witness :
  map title
      [mkArticle (u "Outlet") (u "T") (u "http://ex.com/a") false true
                 [] [] false None]
  = map entry_title [mkEntry (u "T") (u "http://feeds.ex.com/r/1")]
  /\ Forall (fun a =>
               a = mkArticle (u "Outlet") (title a) (url a) false true
                             [] [] false None
               /\ (false = false ->
                   ~ In question_mark (url a) /\ ~ In hash_sign (url a)))
            [mkArticle (u "Outlet") (u "T") (u "http://ex.com/a") false true
                       [] [] false None].
Proof.
  apply (parse_feed_returns_clean_articles (Sample.world Sample.settles)
           (u "Outlet") [mkEntry (u "T") (u "http://feeds.ex.com/r/1")]
           false true _ Sample.start
           (logged Sample.start [HttpHead (u "http://feeds.ex.com/r/1")])).
  vm_compute; reflexivity.
Defined.

(** ** Job chunks *)

Lemma firstn_then_slice {A : Type} (a : list A) (lo hi : nat) :
  lo <= hi -> firstn lo a ++ slice a lo hi = firstn hi a.
Proof.
  unfold slice. revert lo hi; induction a as [|x a IH]; intros lo hi Hle.
  - now rewrite skipn_nil, !firstn_nil.
  - destruct lo as [|lo]; simpl.
    + now rewrite Nat.sub_0_r.
    + destruct hi as [|hi]; [lia|]. simpl. f_equal.
      apply IH. lia.
Qed.

Lemma concat_slices {A : Type} (a : list A) (b : nat -> nat) (j : nat) :
  b 0 = 0 -> (forall i, b i <= b (i + 1)) ->
  List.concat (map (fun i => slice a (b i) (b (i + 1))) (seq 0 j))
  = firstn (b j) a.
Proof.
  intros H0 Hmono. induction j as [|j IH].
  - simpl. now rewrite H0.
  - rewrite seq_S, map_app, concat_app, IH. simpl.
    rewrite app_nil_r. replace (S j) with (j + 1) by lia.
    now apply firstn_then_slice.
Qed.

Lemma length_slice {A : Type} (a : list A) (lo hi : nat) :
  hi <= List.length a -> List.length (slice a lo hi) = hi - lo.
Proof.
  intros H. unfold slice. rewrite length_firstn, length_skipn. lia.
Qed.

(** X29: [chunk_list] refuses zero chunks; otherwise it cuts the list
    into exactly [n] consecutive chunks that put together give the list
    back, the first [len mod n] chunks holding one element more than the
    others ([len / n]): every element lands in exactly one chunk and the
    sizes differ by at most one. *)
Theorem chunk_list_partitions {A : Type} (a : list A) (n : nat)
    (chunks : list (list A))
    (Hsome : chunk_list a n = Some chunks) :
  n <> 0
  /\ List.concat chunks = a
  /\ List.length chunks = n
  /\ map (@List.length A) chunks
     = map (fun i => List.length a / n
                     + (if Nat.ltb i (List.length a mod n) then 1 else 0))
           (seq 0 n)
  /\ chunk_list a 0 = None.
Proof.
  destruct n as [|n']; [discriminate|].
  assert (Hchunks :
            chunks
            = map (fun i =>
                     slice a
                       (i * (List.length a / S n')
                        + Nat.min i (List.length a mod S n'))
                       ((i + 1) * (List.length a / S n')
                        + Nat.min (i + 1) (List.length a mod S n')))
                  (seq 0 (S n')))
    by (unfold chunk_list in Hsome; congruence).
  clear Hsome. subst chunks.
  set (n := S n') in *.
  set (k := List.length a / n). set (m := List.length a mod n).
  assert (Hm : m < n) by (apply Nat.mod_upper_bound; discriminate).
  assert (Hlen : List.length a = n * k + m) by apply Nat.div_mod_eq.
  assert (Hstep : forall i, i * k + Nat.min i m
                            <= (i + 1) * k + Nat.min (i + 1) m)
    by (intros i; lia).
  split; [discriminate|]. split; [|split; [|split]].
  - rewrite (concat_slices a (fun i => i * k + Nat.min i m)); auto.
    replace (n * k + Nat.min n m) with (List.length a) by lia.
    apply firstn_all.
  - now rewrite length_map, length_seq.
  - rewrite map_map. apply map_ext_in. intros i Hi.
    apply in_seq in Hi. rewrite length_slice.
    + destruct (Nat.ltb_spec i m); lia.
    + rewrite Hlen.
      assert (Hk : (i + 1) * k <= n * k)
        by (apply Nat.mul_le_mono_r; lia).
      lia.
  - reflexivity.
Qed.

Lemma chunk_list_partitions_witness :
  List.concat [[u "a"; u "b"; u "c"]; [u "d"; u "e"; u "f"]; [u "g"; u "h"]]
  = [u "a"; u "b"; u "c"; u "d"; u "e"; u "f"; u "g"; u "h"].
Proof.
  pose proof (chunk_list_partitions
                [u "a"; u "b"; u "c"; u "d"; u "e"; u "f"; u "g"; u "h"] 3
                [[u "a"; u "b"; u "c"]; [u "d"; u "e"; u "f"];
                 [u "g"; u "h"]]) as H.
  destruct H as (_ & H & _); [reflexivity | exact H].
Defined.

(** ** Posting at most once *)

Lemma posts_app (l l' : list Event) : posts (l ++ l') = posts l + posts l'.
Proof. unfold posts. now rewrite filter_app, length_app. Qed.

Lemma posts_none (l : list Event) : Forall not_post l -> posts l = 0.
Proof.
  induction 1 as [|e l He _ IH]; [reflexivity|].
  change (e :: l) with ([e] ++ l). rewrite posts_app, IH.
  destruct e; try reflexivity. now contradiction (He status media_ids
                                                     in_reply_to_status_id).
Qed.

Lemma posts_at_most_bind {A B : Type} (n n' : nat) (m : M A)
    (k : A -> M B) :
  preserves (posts_at_most n) m ->
  (forall x, preserves (posts_at_most n') (k x)) ->
  preserves (posts_at_most (n + n')) (bind m k).
Proof.
  intros Hm Hk st. unfold bind.
  destruct (Hm st) as (e1 & Hl1 & Hp1).
  destruct (m st) as [[e|x] st1]; simpl in *.
  - exists e1. split; [exact Hl1 | lia].
  - destruct (Hk x st1) as (e2 & Hl2 & Hp2).
    exists (e1 ++ e2). split.
    + now rewrite Hl2, Hl1, app_assoc.
    + rewrite posts_app. lia.
Qed.

Lemma posts_at_most_of_calls {A : Type} (m : M A) :
  preserves (calls not_post) m -> preserves (posts_at_most 0) m.
Proof.
  intros Hm st. destruct (Hm st) as (_ & _ & evs & Hl & Hall).
  exists evs. split; [exact Hl|]. now rewrite posts_none.
Qed.

Lemma posts_at_most_of_grows {A : Type} (m : M A) :
  preserves (grows not_post) m -> preserves (posts_at_most 0) m.
Proof.
  intros Hm st. destruct (Hm st) as (_ & _ & _ & evs & Hl & Hall).
  exists evs. split; [exact Hl|]. now rewrite posts_none.
Qed.

Ltac quiet_calls :=
  repeat run_step (calls_refl not_post) (calls_trans not_post)
                  (calls_emit not_post)
                  ltac:(unfold not_post; intros; discriminate).

Lemma tweet_posts_once (cfg : Config) (env : Env) (a : Article)
    (parent : option Z) :
  preserves (posts_at_most 1) (tweet cfg env a parent).
Proof.
  unfold tweet. cbv zeta.
  apply (posts_at_most_bind 0 1);
    [apply posts_at_most_of_calls; quiet_calls | intros a1].
  apply (posts_at_most_bind 0 1);
    [apply posts_at_most_of_calls; quiet_calls | intros media_ids].
  destruct (TEST_MODE cfg).
  - apply (posts_at_most_bind 0 1); [|intros _].
    + apply posts_at_most_of_calls; quiet_calls.
    + intros st. exists []. split; [now rewrite app_nil_r | apply Nat.le_0_l].
  - apply (posts_at_most_bind 1 0); [|intros _].
    + intros st. eexists [_]. split; [reflexivity | apply le_n].
    + apply posts_at_most_of_calls; quiet_calls.
Qed.

Lemma body_posts_once (cfg : Config) (env : Env) (total counter : nat)
    (a : Article) :
  preserves (posts_at_most 1) (process_article cfg env total counter a).
Proof.
  unfold process_article.
  apply (posts_at_most_bind 0 1);
    [apply posts_at_most_of_calls; quiet_calls | intros d].
  destruct (negb _).
  { intros st. exists []. split; [now rewrite app_nil_r | apply Nat.le_0_l]. }
  apply (posts_at_most_bind 0 1);
    [apply posts_at_most_of_calls; quiet_calls | intros _].
  apply (posts_at_most_bind 0 1); [|intros article].
  { apply posts_at_most_of_calls.
    unfold check_for_matches, clean. quiet_calls. }
  apply (posts_at_most_bind 1 0); [|intros r].
  - destruct (matching_grafs article).
    + intros st. exists []. split; [now rewrite app_nil_r | apply Nat.le_0_l].
    + apply (posts_at_most_bind 0 1);
        [apply posts_at_most_of_calls; quiet_calls | intros _].
      apply (posts_at_most_bind 0 1); [|intros parent].
      { apply posts_at_most_of_calls. unfold thread_parent. quiet_calls. }
      apply (posts_at_most_bind 1 0); [apply tweet_posts_once | intros r].
      apply posts_at_most_of_calls; quiet_calls.
  - apply posts_at_most_of_grows, grows_record_article.
    unfold not_post; intros; discriminate.
Qed.

(** X30: one run of the loop body calls [update_status] at most once,
    so a pass over [n] articles posts at most [n] statuses, whatever the
    store, the sites and the word lists are, and whether it ends normally
    or raises. *)
Theorem pass_posts_at_most_once_per_article
    (cfg : Config) (env : Env) (deduped : list Article)
    (total counter : nat) (st : State) :
  exists evs,
    log (snd (process_articles cfg env total counter deduped st))
    = log st ++ evs
    /\ posts evs <= List.length deduped.
Proof.
  revert counter st.
  induction deduped as [|x rest IH]; intros counter st.
  - exists []. split; [simpl; now rewrite app_nil_r | apply le_n].
  - change (List.length (x :: rest)) with (1 + List.length rest).
    apply (posts_at_most_bind 1 (List.length rest)
             (process_article cfg env total counter x)
             (fun _ => process_articles cfg env total (S counter) rest)).
    + apply body_posts_once.
    + intros _ s. apply IH.
Qed.

(** ** More sample runs *)

Lemma case_sensitive_match_holds_root_witness :
  contains (u "FBI") (u "The FBI said so.") = true
  /\ List.length (u "FBI") + 2 <= List.length (u "The FBI said so.").
Proof.
  apply (case_sensitive_match_holds_root (u "FBI") (u "The FBI said so.")).
  vm_compute; reflexivity.
Defined.

Lemma graf_matches_only_listed_words_witness :
  (exists word, In word (matchwords Sample.config)
                /\ contains
                     (lower (tolower (Sample.world Sample.direct)) word)
                     (lower (tolower (Sample.world Sample.direct))
                            (u "The FBI said so.")) = true)
  \/ (exists root, In root [u "FBI"]
                   /\ contains root (u "The FBI said so.") = true
                   /\ List.length root + 2
                      <= List.length (u "The FBI said so.")).
Proof.
  apply (graf_matches_only_listed_words Sample.config
           (Sample.world Sample.direct) [u "FBI"] (u "The FBI said so.")).
  - reflexivity.
  - vm_compute; reflexivity.
Defined.

Lemma insert_unguarded_after_failed_index_witness :
  setup_db
    (Some (mkDb [ArticleRow.mk 1 (u "X") (u "O") (u "http://ex.com/a") false 10 None;
                 ArticleRow.mk 2 (u "X") (u "O") (u "http://ex.com/a") false 20 None]
                false))
  = mkDb [ArticleRow.mk 1 (u "X") (u "O") (u "http://ex.com/a") false 10 None;
          ArticleRow.mk 2 (u "X") (u "O") (u "http://ex.com/a") false 20 None]
         false
  /\ insert
       (setup_db
          (Some (mkDb [ArticleRow.mk 1 (u "X") (u "O") (u "http://ex.com/a") false
                              10 None;
                       ArticleRow.mk 2 (u "X") (u "O") (u "http://ex.com/a") false
                              20 None]
                      false)))
       (u "X") (u "O") (u "http://ex.com/a") false 30 None
     = inr (mkDb ([ArticleRow.mk 1 (u "X") (u "O") (u "http://ex.com/a") false
                          10 None;
                   ArticleRow.mk 2 (u "X") (u "O") (u "http://ex.com/a") false
                          20 None]
                  ++ [ArticleRow.mk
                        (next_id
                           (mkDb [ArticleRow.mk 1 (u "X") (u "O")
                                         (u "http://ex.com/a") false 10 None;
                                  ArticleRow.mk 2 (u "X") (u "O")
                                         (u "http://ex.com/a") false 20 None]
                                 false))
                        (u "X") (u "O") (u "http://ex.com/a") false 30 None])
                 false).
Proof.
  apply (insert_unguarded_after_failed_index
           (mkDb [ArticleRow.mk 1 (u "X") (u "O") (u "http://ex.com/a") false 10 None;
                  ArticleRow.mk 2 (u "X") (u "O") (u "http://ex.com/a") false 20 None]
                 false)
           (u "X") (u "O") (u "http://ex.com/a") false 30 None).
  - reflexivity.
  - vm_compute; reflexivity.
Defined.
